(** * atidlas model layer: variant selection, program cache and importer

    Shallow embedding of [lib/model/model.cpp].  Methods of [model] are
    functions from the object before the call to an [outcome] carrying the
    object after it; everything the file only calls (templates, symbolic
    expressions, the random forest, OpenCL, rapidjson) is an interface. *)

From Stdlib Require Import ZArith Ascii String.
From stdpp Require Import gmap strings list fin_maps.

Set Warnings "-register-all".

Open Scope Z_scope.
Open Scope string_scope.
Open Scope list_scope.
Open Scope nat_scope.

(** ** Failures

    [invalid_argument] is [std::invalid_argument]; [assertion_failure] is a
    failed [assert] / [RAPIDJSON_ASSERT]; [undefined_behaviour] is an access
    outside an array or vector through an unchecked [operator[]] or a raw
    pointer, or a null dereference. *)

Inductive failure : Type :=
  | invalid_argument (what : string)
  | assertion_failure
  | undefined_behaviour.

Inductive outcome (A : Type) : Type :=
  | Ok (a : A)
  | Fail (f : failure).

Arguments Ok {A} a.
Arguments Fail {A} f.

#[global] Instance outcome_ret : MRet outcome := fun A a => Ok a.
#[global] Instance outcome_bind : MBind outcome := fun A B k r =>
  match r with
  | Ok a => k a
  | Fail f => Fail f
  end.

(** A [for] loop over a container whose body may fail. *)
Fixpoint for_each {A S : Type} (body : S → A → outcome S) (s : S) (l : list A)
  : outcome S :=
  match l with
  | [] => Ok s
  | a :: l' => s' ← body s a; for_each body s' l'
  end.

(** Unchecked [v[i]] on a [std::vector] or a C array. *)
Definition at_index {A : Type} (v : list A) (i : nat) : outcome A :=
  match v !! i with
  | Some a => Ok a
  | None => Fail undefined_behaviour
  end.

(** ** Enumerations *)

Inductive expression_type : Type :=
  | SCALAR_AXPY_TYPE
  | VECTOR_AXPY_TYPE
  | REDUCTION_TYPE
  | MATRIX_AXPY_TYPE
  | ROW_WISE_REDUCTION_TYPE
  | COL_WISE_REDUCTION_TYPE
  | MATRIX_PRODUCT_NN_TYPE
  | MATRIX_PRODUCT_TN_TYPE
  | MATRIX_PRODUCT_NT_TYPE
  | MATRIX_PRODUCT_TT_TYPE.

Inductive numeric_type : Type :=
  | CHAR_TYPE | UCHAR_TYPE | SHORT_TYPE | USHORT_TYPE | INT_TYPE | UINT_TYPE
  | LONG_TYPE | ULONG_TYPE | FLOAT_TYPE | DOUBLE_TYPE.

Inductive fetching_policy_type : Type :=
  | FETCH_FROM_LOCAL
  | FETCH_FROM_GLOBAL_STRIDED
  | FETCH_FROM_GLOBAL_CONTIGUOUS.

Inductive binding_policy_t : Type := BIND_TO_HANDLE | BIND_ALL_UNIQUE.

Inductive order_type : Type := SEQUENTIAL | INDEPENDENT.

#[global] Instance expression_type_eq_dec : EqDecision expression_type.
Proof. solve_decision. Defined.

#[global] Instance numeric_type_eq_dec : EqDecision numeric_type.
Proof. solve_decision. Defined.

Definition expression_type_code (e : expression_type) : nat :=
  match e with
  | SCALAR_AXPY_TYPE => 0 | VECTOR_AXPY_TYPE => 1 | REDUCTION_TYPE => 2
  | MATRIX_AXPY_TYPE => 3 | ROW_WISE_REDUCTION_TYPE => 4
  | COL_WISE_REDUCTION_TYPE => 5 | MATRIX_PRODUCT_NN_TYPE => 6
  | MATRIX_PRODUCT_TN_TYPE => 7 | MATRIX_PRODUCT_NT_TYPE => 8
  | MATRIX_PRODUCT_TT_TYPE => 9
  end.

Definition expression_type_of_code (n : nat) : expression_type :=
  match n with
  | 0 => SCALAR_AXPY_TYPE | 1 => VECTOR_AXPY_TYPE | 2 => REDUCTION_TYPE
  | 3 => MATRIX_AXPY_TYPE | 4 => ROW_WISE_REDUCTION_TYPE
  | 5 => COL_WISE_REDUCTION_TYPE | 6 => MATRIX_PRODUCT_NN_TYPE
  | 7 => MATRIX_PRODUCT_TN_TYPE | 8 => MATRIX_PRODUCT_NT_TYPE
  | _ => MATRIX_PRODUCT_TT_TYPE
  end.

#[global] Program Instance expression_type_countable : Countable expression_type :=
  inj_countable' expression_type_code expression_type_of_code _.
Next Obligation. by intros []. Qed.

Definition numeric_type_code (t : numeric_type) : nat :=
  match t with
  | CHAR_TYPE => 0 | UCHAR_TYPE => 1 | SHORT_TYPE => 2 | USHORT_TYPE => 3
  | INT_TYPE => 4 | UINT_TYPE => 5 | LONG_TYPE => 6 | ULONG_TYPE => 7
  | FLOAT_TYPE => 8 | DOUBLE_TYPE => 9
  end.

Definition numeric_type_of_code (n : nat) : numeric_type :=
  match n with
  | 0 => CHAR_TYPE | 1 => UCHAR_TYPE | 2 => SHORT_TYPE | 3 => USHORT_TYPE
  | 4 => INT_TYPE | 5 => UINT_TYPE | 6 => LONG_TYPE | 7 => ULONG_TYPE
  | 8 => FLOAT_TYPE | _ => DOUBLE_TYPE
  end.

#[global] Program Instance numeric_type_countable : Countable numeric_type :=
  inj_countable' numeric_type_code numeric_type_of_code _.
Next Obligation. by intros []. Qed.

(** ** Templates

    The subclasses of [base] that the file constructs, with the constructor
    arguments in the order of the calls in [detail::create]. *)

Inductive base : Type :=
  | vaxpy (a0 a1 a2 : Z) (f : fetching_policy_type)
  | reduction (a0 a1 a2 : Z) (f : fetching_policy_type)
  | maxpy (a0 a1 a2 a3 a4 : Z) (f : fetching_policy_type)
  | mreduction_rows (a0 a1 a2 a3 : Z) (f : fetching_policy_type)
  | mreduction_cols (a0 a1 a2 a3 : Z) (f : fetching_policy_type)
  | mproduct_nn (a0 a1 a2 a3 a4 a5 a6 : Z) (fa fb : fetching_policy_type) (a9 a10 : Z)
  | mproduct_tn (a0 a1 a2 a3 a4 a5 a6 : Z) (fa fb : fetching_policy_type) (a9 a10 : Z)
  | mproduct_nt (a0 a1 a2 a3 a4 a5 a6 : Z) (fa fb : fetching_policy_type) (a9 a10 : Z)
  | mproduct_tt (a0 a1 a2 a3 a4 a5 a6 : Z) (fa fb : fetching_policy_type) (a9 a10 : Z).

(** ** The parsed description (rapidjson)

    A [rapidjson::Value] after [Parse]: an object keeps its members in file
    order, duplicates included. *)

Inductive Value : Type :=
  | JNull
  | JBool (b : bool)
  | JInt (z : Z)
  | JDouble (mantissa exponent : Z)
  | JString (s : string)
  | JArray (elements : list Value)
  | JObject (members : list (string * Value)).

(** [FindMember]: the first member with that name. *)
Fixpoint find_member (members : list (string * Value)) (name : string)
  : option Value :=
  match members with
  | [] => None
  | (k, v) :: rest => if String.eqb k name then Some v else find_member rest name
  end.

(** [Value::HasMember(name)]; asserts [IsObject()]. *)
Definition HasMember (v : Value) (name : string) : outcome bool :=
  match v with
  | JObject members => Ok (bool_decide (is_Some (find_member members name)))
  | _ => Fail assertion_failure
  end.

(** [Value::operator[](name)]; asserts that the member exists (rapidjson
    from 1.0 on; the statements below compare outcomes of [member] or
    assume it succeeds, so they do not rest on what a missing member
    gives). *)
Definition member (v : Value) (name : string) : outcome Value :=
  match v with
  | JObject members =>
      match find_member members name with
      | Some x => Ok x
      | None => Fail assertion_failure
      end
  | _ => Fail assertion_failure
  end.

(** [Value::Size()]; asserts [IsArray()]. *)
Definition Size (v : Value) : outcome nat :=
  match v with
  | JArray elements => Ok (length elements)
  | _ => Fail assertion_failure
  end.

(** [Value::operator[](SizeType)]; asserts [IsArray()] and the bound. *)
Definition element (v : Value) (i : nat) : outcome Value :=
  match v with
  | JArray elements =>
      match elements !! i with
      | Some x => Ok x
      | None => Fail assertion_failure
      end
  | _ => Fail assertion_failure
  end.

(** [Value::GetInt()]; asserts [IsInt()]. *)
Definition GetInt (v : Value) : outcome Z :=
  match v with
  | JInt z => Ok z
  | _ => Fail assertion_failure
  end.

(** Modelled from the spec: [tools::to_int_array<int>] of [convert.hpp] is not
    among the sources; a profile is "an ordered list of integers", read
    element by element from the JSON array. *)
Definition to_int_array (v : Value) : outcome (list Z) :=
  match v with
  | JArray elements => for_each (fun acc x => z ← GetInt x; Ok (acc ++ [z])) [] elements
  | _ => Fail assertion_failure
  end.

(** ** OpenCL handles *)

Record Device : Type := { device_extensions : string }.

(** [cl_ext::lazy_compiler]: a program shell that records sources; [add]
    appends one. *)
Record lazy_compiler : Type := {
  lc_context : Z;
  lc_name : string;
  lc_force_recompilation : bool;
  lc_sources : list string
}.

Definition new_lazy_compiler (context : Z) (name : string) (force : bool)
  : lazy_compiler :=
  {| lc_context := context; lc_name := name;
     lc_force_recompilation := force; lc_sources := [] |}.

Definition add (c : lazy_compiler) (src : string) : lazy_compiler :=
  {| lc_context := lc_context c; lc_name := lc_name c;
     lc_force_recompilation := lc_force_recompilation c;
     lc_sources := lc_sources c ++ [src] |}.

(** [std::string::find(ext) != npos]. *)
Definition contains (s sub : string) : bool :=
  match String.index 0 sub s with
  | Some _ => true
  | None => false
  end.

Definition define_extension (extensions ext : string) : string :=
  if contains extensions ext
  then "#pragma OPENCL EXTENSION " ++ ext ++ " : enable" ++ String "010" EmptyString
  else "".

(** ** Collaborators

    What [model.cpp] calls and does not define.  [float] is the type of
    predicted costs and of measured durations, [float_lt] its [operator<]
    (the comparison [std::min_element] uses).  The symbolic binder is
    threaded through [traverse], which hands the characters of one
    expression's representation to the functor, in order. *)

Class Collaborators : Type := {
  symbolic_expression : Type;
  symbolic_binder : Type;
  bind_to_handle : symbolic_binder;
  bind_all_unique : symbolic_binder;
  traverse : symbolic_expression → symbolic_binder → list ascii * symbolic_binder;
  float : Type;
  float_zero : float;
  float_lt : float → float → bool;
  random_forest : Type;
  random_forest_of_json : Value → random_forest;
  predict : random_forest → list Z → list float
}.

Section Model.
Context {C : Collaborators}.

Record symbolic_expressions_container : Type := {
  order : order_type;
  data : list symbolic_expression;
  context : Z
}.

(** The virtual methods of [base] that depend on the expressions. *)
Class Templates : Type := {
  input_sizes : base → symbolic_expressions_container → list Z;
  generate : base → nat → symbolic_expressions_container → Device → list string
}.
Context {T : Templates}.

(** What the queue has been asked to do, oldest first.  [enqueued] records
    the arguments of [base::enqueue] (the receiver first); what the template
    then does with the program shells, compiling them on first use, is the
    template's and the lazy compiler's own business. *)
Inductive command : Type :=
  | enqueued (tpl : base) (compilers : list lazy_compiler) (label : nat)
             (exprs : symbolic_expressions_container)
  | finished.

Record CommandQueue : Type := {
  queue_context : Z;
  queue_device : Device;
  queue_commands : list command
}.

Definition submit (q : CommandQueue) (c : command) : CommandQueue :=
  {| queue_context := queue_context q; queue_device := queue_device q;
     queue_commands := queue_commands q ++ [c] |}.

(** ** The model object

    [hardcoded_] is [std::map<std::vector<int_t>, int>]; the labels stored in
    it are distances inside a vector.  [lazy_programs_] is indexed by the
    context handle, then by program name. *)

Record model : Type := {
  templates_ : list base;
  predictor_ : option random_forest;
  hardcoded_ : gmap (list Z) nat;
  lazy_programs_ : gmap Z (gmap string (list lazy_compiler));
  queue_ : CommandQueue
}.

Definition set_lazy_programs (m : model)
    (p : gmap Z (gmap string (list lazy_compiler))) : model :=
  {| templates_ := templates_ m; predictor_ := predictor_ m;
     hardcoded_ := hardcoded_ m; lazy_programs_ := p; queue_ := queue_ m |}.

Definition set_hardcoded (m : model) (h : gmap (list Z) nat) : model :=
  {| templates_ := templates_ m; predictor_ := predictor_ m;
     hardcoded_ := h; lazy_programs_ := lazy_programs_ m; queue_ := queue_ m |}.

Definition set_queue (m : model) (q : CommandQueue) : model :=
  {| templates_ := templates_ m; predictor_ := predictor_ m;
     hardcoded_ := hardcoded_ m; lazy_programs_ := lazy_programs_ m; queue_ := q |}.

(** The three constructors. *)
Definition model_with_predictor (predictor : random_forest) (templates : list base)
    (queue : CommandQueue) : model :=
  {| templates_ := templates; predictor_ := Some predictor;
     hardcoded_ := ∅; lazy_programs_ := ∅; queue_ := queue |}.

Definition model_of_templates (templates : list base) (queue : CommandQueue) : model :=
  {| templates_ := templates; predictor_ := None;
     hardcoded_ := ∅; lazy_programs_ := ∅; queue_ := queue |}.

Definition model_of_template (tp : base) (queue : CommandQueue) : model :=
  {| templates_ := [tp]; predictor_ := None;
     hardcoded_ := ∅; lazy_programs_ := ∅; queue_ := queue |}.

(** ** fill_program_name

    [char program_name[256]] is written through a pointer that only moves
    forward: the buffer is the list of the characters stored so far, the
    pointer is at offset [length buf].  Nothing in the source compares the
    pointer with the end of the array. *)

Definition program_name_size : nat := 256.

(** [*program_name++ = c] *)
Definition store (buf : list ascii) (c : ascii) : outcome (list ascii) :=
  if decide (length buf < program_name_size)
  then Ok (buf ++ [c])
  else Fail undefined_behaviour.

Definition store_all (buf : list ascii) (cs : list ascii) : outcome (list ascii) :=
  for_each store buf cs.

Definition new_binder (binding_policy : binding_policy_t) : symbolic_binder :=
  match binding_policy with
  | BIND_TO_HANDLE => bind_to_handle
  | BIND_ALL_UNIQUE => bind_all_unique
  end.

(** The body of the loop over [data()], one call of [traverse] with the
    representation functor built on the binder and on [program_name]:
    the functor stores the characters of the expression's representation
    through the pointer and moves it. *)
Definition traverse_into (state : list ascii * symbolic_binder) (e : symbolic_expression)
  : outcome (list ascii * symbolic_binder) :=
  let '(buf, binder) := state in
  let '(cs, binder') := traverse e binder in
  buf' ← store_all buf cs; Ok (buf', binder').

Definition fill_program_name (symbolic_expressions : symbolic_expressions_container)
    (binding_policy : binding_policy_t) : outcome (list ascii) :=
  buf ← store [] (match order symbolic_expressions with
                  | INDEPENDENT => "i"%char
                  | SEQUENTIAL => "s"%char
                  end);
  let binder := new_binder binding_policy in
  '(buf, _) ← for_each traverse_into (buf, binder) (data symbolic_expressions);
  store buf zero.

(** [std::string pname(program_name)]: the characters before the first NUL. *)
Fixpoint c_string (buf : list ascii) : string :=
  match buf with
  | [] => EmptyString
  | c :: rest => if Ascii.eqb c zero then EmptyString else String c (c_string rest)
  end.

(** ** init *)

(** [for j < cur.size(): to_init[j].add(cur[j])] *)
Fixpoint add_sources (to_init : list lazy_compiler) (j : nat) (cur : list string)
  : outcome (list lazy_compiler) :=
  match cur with
  | [] => Ok to_init
  | src :: cur' =>
      c ← at_index to_init j;
      add_sources (<[j := add c src]> to_init) (S j) cur'
  end.

(** [for i < templates_.size(): cur = templates_[i]->generate(i, ...)] *)
Fixpoint generate_all (to_init : list lazy_compiler) (i : nat) (templates : list base)
    (symbolic_expressions : symbolic_expressions_container) (device : Device)
  : outcome (list lazy_compiler) :=
  match templates with
  | [] => Ok to_init
  | tpl :: templates' =>
      let cur := generate tpl i symbolic_expressions device in
      to_init' ← add_sources to_init 0 cur;
      generate_all to_init' (S i) templates' symbolic_expressions device
  end.

(** [lazy_programs_[context()][pname]]: [operator[]] of [std::map] gives the
    empty vector for a key that is not there (and leaves it in the map). *)
Definition cache_entry (m : model) (ctx : Z) (pname : string) : list lazy_compiler :=
  default [] (default ∅ (lazy_programs_ m !! ctx) !! pname).

Definition cache_store (m : model) (ctx : Z) (pname : string)
    (v : list lazy_compiler) : model :=
  set_lazy_programs m
    (<[ctx := <[pname := v]> (default ∅ (lazy_programs_ m !! ctx))]> (lazy_programs_ m)).

Definition init (m : model) (symbolic_expressions : symbolic_expressions_container)
    (ctx : Z) (device : Device) (force_recompilation : bool)
  : outcome (list lazy_compiler * model) :=
  program_name ← fill_program_name symbolic_expressions BIND_TO_HANDLE;
  let pname := c_string program_name in
  let to_init := cache_entry m ctx pname in
  match to_init with
  | [] =>
      let extensions := device_extensions device in
      let to_init :=
        to_init ++ [add (new_lazy_compiler ctx pname force_recompilation)
                        (define_extension extensions "cl_khr_fp64")] in
      let to_init :=
        to_init ++ [add (new_lazy_compiler ctx (pname ++ "_fb") force_recompilation)
                        (define_extension extensions "cl_khr_fp64")] in
      to_init ← generate_all to_init 0 (templates_ m) symbolic_expressions device;
      Ok (to_init, cache_store m ctx pname to_init)
  | _ :: _ => Ok (to_init, m)
  end.

(** ** execute and tune *)

(** [std::distance(v.begin(), std::min_element(v.begin(), v.end()))]:
    [smallest] starts at the first element and moves to a later one only when
    that one is strictly smaller; on an empty range the result is [end]. *)
Fixpoint min_element_from (smallest : nat) (smallest_value : float) (i : nat)
    (rest : list float) : nat :=
  match rest with
  | [] => smallest
  | x :: rest' =>
      if float_lt x smallest_value
      then min_element_from i x (S i) rest'
      else min_element_from smallest smallest_value (S i) rest'
  end.

Definition min_element (v : list float) : nat :=
  match v with
  | [] => 0
  | x :: rest => min_element_from 0 x 1 rest
  end.

(** [templates_[label]->enqueue(queue_, compilers, label, exprs)] *)
Definition enqueue (m : model) (compilers : list lazy_compiler) (label : nat)
    (symbolic_expressions : symbolic_expressions_container) : outcome model :=
  tpl ← at_index (templates_ m) label;
  Ok (set_queue m (submit (queue_ m) (enqueued tpl compilers label symbolic_expressions))).

Definition check_context (m : model)
    (symbolic_expressions : symbolic_expressions_container) : outcome unit :=
  if decide (context symbolic_expressions = queue_context (queue_ m))
  then Ok ()
  else Fail assertion_failure.

(** The label chosen by [execute], between "Prediction" and "Execution". *)
Definition choose_label (m : model) (bypass_predictor : bool) (x : list Z)
  : outcome nat :=
  match hardcoded_ m !! x with
  | Some label => Ok label
  | None =>
      if bypass_predictor then Ok 0
      else match predictor_ m with
           | Some predictor => Ok (min_element (predict predictor x))
           | None => Fail undefined_behaviour
           end
  end.

Definition execute (m : model) (symbolic_expressions : symbolic_expressions_container)
    (bypass_predictor force_recompilation : bool) : outcome model :=
  let bypass_predictor :=
    bypass_predictor || (match predictor_ m with None => true | Some _ => false end) in
  _ ← check_context m symbolic_expressions;
  let device := queue_device (queue_ m) in
  '(compilers, m) ← init m symbolic_expressions (context symbolic_expressions)
                       device force_recompilation;
  tpl0 ← at_index (templates_ m) 0;
  let x := input_sizes tpl0 symbolic_expressions in
  label ← choose_label m bypass_predictor x;
  enqueue m compilers label symbolic_expressions.

(** The timing loop of [tune]; [timer_get i] is what [timer.get()] returns
    after variant [i] has run. *)
Fixpoint collect_timings (m : model) (compilers : list lazy_compiler)
    (symbolic_expressions : symbolic_expressions_container)
    (timer_get : nat → float) (timings : list float) (i : nat) (count : nat)
  : outcome (list float * model) :=
  match count with
  | O => Ok (timings, m)
  | S count' =>
      m ← enqueue m compilers i symbolic_expressions;
      let m := set_queue m (submit (queue_ m) finished) in
      _ ← at_index timings i;
      let timings := <[i := timer_get i]> timings in
      collect_timings m compilers symbolic_expressions timer_get timings (S i) count'
  end.

Definition tune (m : model) (symbolic_expressions : symbolic_expressions_container)
    (timer_get : nat → float) : outcome model :=
  _ ← check_context m symbolic_expressions;
  let device := queue_device (queue_ m) in
  '(compilers, m) ← init m symbolic_expressions (context symbolic_expressions)
                       device false;
  let timings := replicate (length (templates_ m)) float_zero in
  '(timings, m) ← collect_timings m compilers symbolic_expressions timer_get
                     timings 0 (length (templates_ m));
  tpl0 ← at_index (templates_ m) 0;
  let x := input_sizes tpl0 symbolic_expressions in
  Ok (set_hardcoded m (<[x := min_element timings]> (hardcoded_ m))).

End Model.

(** ** The importer *)

Module detail.

Definition get_expression_type (name : string) : outcome expression_type :=
  if String.eqb name "vaxpy" then Ok VECTOR_AXPY_TYPE
  else if String.eqb name "dot" then Ok REDUCTION_TYPE
  else if String.eqb name "maxpy" then Ok MATRIX_AXPY_TYPE
  else if String.eqb name "gemvN" then Ok ROW_WISE_REDUCTION_TYPE
  else if String.eqb name "gemvT" then Ok COL_WISE_REDUCTION_TYPE
  else if String.eqb name "gemmNN" then Ok MATRIX_PRODUCT_NN_TYPE
  else if String.eqb name "gemmNT" then Ok MATRIX_PRODUCT_NT_TYPE
  else if String.eqb name "gemmTN" then Ok MATRIX_PRODUCT_TN_TYPE
  else if String.eqb name "gemmTT" then Ok MATRIX_PRODUCT_TT_TYPE
  else Fail (invalid_argument ("Invalid expression: " ++ name)).

Definition get_dtype (name : string) : outcome numeric_type :=
  if String.eqb name "float32" then Ok FLOAT_TYPE
  else if String.eqb name "float64" then Ok DOUBLE_TYPE
  else Fail (invalid_argument ("Invalid datatype: " ++ name)).

Definition fetch : list fetching_policy_type :=
  [FETCH_FROM_LOCAL; FETCH_FROM_GLOBAL_STRIDED; FETCH_FROM_GLOBAL_CONTIGUOUS].

(** [fetch[a[i]]]: two unchecked subscripts, the second with an [int]. *)
Definition fetch_at (a : list Z) (i : nat) : outcome fetching_policy_type :=
  z ← at_index a i;
  if decide (0 ≤ z)%Z then at_index fetch (Z.to_nat z) else Fail undefined_behaviour.

Definition create_mproduct
    (mk : Z → Z → Z → Z → Z → Z → Z →
          fetching_policy_type → fetching_policy_type → Z → Z → base)
    (a : list Z) : outcome base :=
  a0 ← at_index a 0; a1 ← at_index a 1; a2 ← at_index a 2; a3 ← at_index a 3;
  a4 ← at_index a 4; a5 ← at_index a 5; a6 ← at_index a 6;
  f7 ← fetch_at a 7; f8 ← fetch_at a 8;
  a9 ← at_index a 9; a10 ← at_index a 10;
  Ok (mk a0 a1 a2 a3 a4 a5 a6 f7 f8 a9 a10).

Definition create (template_name : string) (a : list Z) : outcome base :=
  if String.eqb template_name "vaxpy" then
    a0 ← at_index a 0; a1 ← at_index a 1; a2 ← at_index a 2; f ← fetch_at a 3;
    Ok (vaxpy a0 a1 a2 f)
  else if String.eqb template_name "dot" then
    a0 ← at_index a 0; a1 ← at_index a 1; a2 ← at_index a 2; f ← fetch_at a 3;
    Ok (reduction a0 a1 a2 f)
  else if String.eqb template_name "maxpy" then
    a0 ← at_index a 0; a1 ← at_index a 1; a2 ← at_index a 2; a3 ← at_index a 3;
    a4 ← at_index a 4; f ← fetch_at a 5;
    Ok (maxpy a0 a1 a2 a3 a4 f)
  else if contains template_name "gemvN" then
    a0 ← at_index a 0; a1 ← at_index a 1; a2 ← at_index a 2; a3 ← at_index a 3;
    f ← fetch_at a 4;
    Ok (mreduction_rows a0 a1 a2 a3 f)
  else if contains template_name "gemvT" then
    a0 ← at_index a 0; a1 ← at_index a 1; a2 ← at_index a 2; a3 ← at_index a 3;
    f ← fetch_at a 4;
    Ok (mreduction_cols a0 a1 a2 a3 f)
  else if contains template_name "gemmNN" then create_mproduct mproduct_nn a
  else if contains template_name "gemmTN" then create_mproduct mproduct_tn a
  else if contains template_name "gemmNT" then create_mproduct mproduct_nt a
  else if contains template_name "gemmTT" then create_mproduct mproduct_tt a
  else Fail (invalid_argument ("Invalid expression: " ++ template_name)).

End detail.

Section Importer.
Context {C : Collaborators}.

(** [model_map_t]: [std::map<std::pair<expression_type, numeric_type>, shared_ptr<model>>];
    every stored pointer is to a freshly constructed model. *)
#[local] Abbreviation model_map_t := (gmap (expression_type * numeric_type) model).

Definition operations : list string :=
  ["vaxpy"; "dot"; "maxpy"; "gemvN"; "gemvT"; "gemmNN"; "gemmTN"; "gemmTT"].

Definition dtype : list string := ["float32"; "float64"].

(** [for id < profiles.Size(): templates.push_back(create(op, to_int_array(profiles[id])))] *)
Definition get_profiles (op : string) (profiles : Value) : outcome (list base) :=
  size ← Size profiles;
  for_each
    (fun templates id =>
       profile ← element profiles id;
       a ← to_int_array profile;
       tpl ← detail.create op a;
       Ok (templates ++ [tpl]))
    [] (seq 0 size).

(** Body of the loop over [dtype]. *)
Definition import_dtype (document : Value) (queue : CommandQueue) (op : string)
    (etype : expression_type) (result : model_map_t) (dt : string)
  : outcome model_map_t :=
  per_op ← member document op;
  has ← HasMember per_op dt;
  if has : bool then
    dtype ← detail.get_dtype dt;
    leaf ← member per_op dt;
    profiles ← member leaf "profiles";
    templates ← get_profiles op profiles;
    if decide (1 < length templates) then
      description ← member leaf "predictor";
      let predictor := random_forest_of_json description in
      Ok (<[(etype, dtype) := model_with_predictor predictor templates queue]> result)
    else
      Ok (<[(etype, dtype) := model_of_templates templates queue]> result)
  else Ok result.

(** Body of the loop over [operations]. *)
Definition import_operation (document : Value) (queue : CommandQueue)
    (result : model_map_t) (op : string) : outcome model_map_t :=
  has ← HasMember document op;
  if has : bool then
    etype ← detail.get_expression_type op;
    for_each (import_dtype document queue op etype) result dtype
  else Ok result.

(** [import], from the parsed document on (reading the file and parsing it
    are the standard library's and rapidjson's). *)
Definition import (document : Value) (queue : CommandQueue) (result : model_map_t)
  : outcome model_map_t :=
  for_each (import_operation document queue) result operations.

End Importer.

(** ** The registry *)

(** What a lookup in the registry ends in: the model, [std::out_of_range]
    thrown by [std::map::at], or a failure on the way there. *)
Inductive lookup_outcome (A : Type) : Type :=
  | Found (a : A)
  | out_of_range
  | Failed (f : failure).

Arguments Found {A} a.
Arguments out_of_range {A}.
Arguments Failed {A} f.

Section Registry.
Context {C : Collaborators}.

Definition types : list numeric_type :=
  [CHAR_TYPE; UCHAR_TYPE; SHORT_TYPE; USHORT_TYPE; INT_TYPE; UINT_TYPE;
   LONG_TYPE; ULONG_TYPE; FLOAT_TYPE; DOUBLE_TYPE].

(** Body of the loop of [init_models] over [types]. *)
Definition default_models (queue : CommandQueue)
    (res : gmap (expression_type * numeric_type) model) (DTYPE : numeric_type)
  : gmap (expression_type * numeric_type) model :=
  let res := <[(SCALAR_AXPY_TYPE, DTYPE) :=
                 model_of_template (vaxpy 1 64 128 FETCH_FROM_GLOBAL_STRIDED) queue]> res in
  let res := <[(VECTOR_AXPY_TYPE, DTYPE) :=
                 model_of_template (vaxpy 1 64 128 FETCH_FROM_GLOBAL_STRIDED) queue]> res in
  let res := <[(REDUCTION_TYPE, DTYPE) :=
                 model_of_template (reduction 1 64 128 FETCH_FROM_GLOBAL_STRIDED) queue]> res in
  let res := <[(MATRIX_AXPY_TYPE, DTYPE) :=
                 model_of_template (maxpy 1 8 8 8 8 FETCH_FROM_GLOBAL_STRIDED) queue]> res in
  let res := <[(ROW_WISE_REDUCTION_TYPE, DTYPE) :=
                 model_of_template (mreduction_rows 1 8 8 16 FETCH_FROM_GLOBAL_STRIDED) queue]> res in
  let res := <[(COL_WISE_REDUCTION_TYPE, DTYPE) :=
                 model_of_template (mreduction_cols 1 8 8 16 FETCH_FROM_GLOBAL_STRIDED) queue]> res in
  let res := <[(MATRIX_PRODUCT_NN_TYPE, DTYPE) :=
                 model_of_template
                   (mproduct_nn 1 8 8 8 4 1 4 FETCH_FROM_LOCAL FETCH_FROM_LOCAL 8 8) queue]> res in
  let res := <[(MATRIX_PRODUCT_TN_TYPE, DTYPE) :=
                 model_of_template
                   (mproduct_tn 1 8 8 8 4 1 4 FETCH_FROM_LOCAL FETCH_FROM_LOCAL 8 8) queue]> res in
  let res := <[(MATRIX_PRODUCT_NT_TYPE, DTYPE) :=
                 model_of_template
                   (mproduct_nt 1 8 8 8 4 1 4 FETCH_FROM_LOCAL FETCH_FROM_LOCAL 8 8) queue]> res in
  <[(MATRIX_PRODUCT_TT_TYPE, DTYPE) :=
      model_of_template
        (mproduct_tt 1 8 8 8 4 1 4 FETCH_FROM_LOCAL FETCH_FROM_LOCAL 8 8) queue]> res.

(** [init_models].  [model_file] is what [std::getenv("ATIDLAS_MODEL_DEVICE_0")]
    leads to: nothing when the variable is not set, else the document parsed
    from the file it names. *)
Definition init_models (queue : CommandQueue) (model_file : option Value)
  : outcome (gmap (expression_type * numeric_type) model) :=
  let res := foldl (default_models queue) ∅ types in
  match model_file with
  | Some document => import document queue res
  | None => Ok res
  end.

(** [get_model_map].  The global [models] is passed in and out; its keys are
    the queues as [cl_ext::compare] tells them apart, here the handle of the
    queue. *)
Definition get_model_map
    (models : gmap Z (gmap (expression_type * numeric_type) model))
    (handle : Z) (queue : CommandQueue) (model_file : option Value)
  : outcome (gmap (expression_type * numeric_type) model *
             gmap Z (gmap (expression_type * numeric_type) model)) :=
  match models !! handle with
  | None =>
      res ← init_models queue model_file;
      Ok (res, <[handle := res]> models)
  | Some res => Ok (res, models)
  end.

(** [get_model]: [*get_model_map(queue).at(key)]. *)
Definition get_model
    (models : gmap Z (gmap (expression_type * numeric_type) model))
    (handle : Z) (queue : CommandQueue) (model_file : option Value)
    (expression : expression_type) (dtype : numeric_type)
  : lookup_outcome (model * gmap Z (gmap (expression_type * numeric_type) model)) :=
  let key := (expression, dtype) in
  match get_model_map models handle queue model_file with
  | Ok (res, models') =>
      match res !! key with
      | Some m => Found (m, models')
      | None => out_of_range
      end
  | Fail f => Failed f
  end.

End Registry.

(** ** Vocabulary of the statements *)

(** What [r] is not: a thrown [std::invalid_argument]. *)
Definition no_invalid_argument {A : Type} (r : outcome A) : Prop :=
  ∀ what, r ≠ Fail (invalid_argument what).

(** [r] fails, if it does, by undefined behaviour only. *)
Definition only_undefined {A : Type} (r : outcome A) : Prop :=
  ∀ f, r = Fail f → f = undefined_behaviour.

(** [sub] occurs in [s]. *)
Definition occurs_in (sub s : string) : Prop :=
  ∃ before after, s = (before ++ sub ++ after)%string.

(** How many integers [create] reads from a profile for a template of the
    type, and which of them it uses as subscripts of [fetch]. *)
Definition arity (t : expression_type) : nat :=
  match t with
  | SCALAR_AXPY_TYPE | VECTOR_AXPY_TYPE | REDUCTION_TYPE => 4
  | MATRIX_AXPY_TYPE => 6
  | ROW_WISE_REDUCTION_TYPE | COL_WISE_REDUCTION_TYPE => 5
  | _ => 11
  end.

Definition fetch_positions (t : expression_type) : list nat :=
  match t with
  | SCALAR_AXPY_TYPE | VECTOR_AXPY_TYPE | REDUCTION_TYPE => [3]
  | MATRIX_AXPY_TYPE => [5]
  | ROW_WISE_REDUCTION_TYPE | COL_WISE_REDUCTION_TYPE => [4]
  | _ => [7; 8]
  end.

(** The profile is long enough for the type and its fetch subscripts are
    0, 1 or 2. *)
Definition profile_ok (t : expression_type) (a : list Z) : Prop :=
  arity t ≤ length a ∧
  Forall (λ i, ∃ z, a !! i = Some z ∧ (0 ≤ z < 3)%Z) (fetch_positions t).

(** The names [create] looks for inside the template name. *)
Definition substring_names : list string :=
  ["gemvN"; "gemvT"; "gemmNN"; "gemmTN"; "gemmNT"; "gemmTT"].

(** The keys [import] can write. *)
Definition importable (key : expression_type * numeric_type) : Prop :=
  (∃ op, op ∈ operations ∧ detail.get_expression_type op = Ok key.1) ∧
  (key.2 = FLOAT_TYPE ∨ key.2 = DOUBLE_TYPE).

Section Vocabulary.
Context {C : Collaborators} {T : Templates}.

(** [float_lt] behaves as a strict weak ordering on the values of [v]
    (it does on floats as long as none of them is a NaN). *)
Definition cost_order (v : list float) : Prop :=
  (∀ a, a ∈ v → float_lt a a = false) ∧
  (∀ a b c, a ∈ v → b ∈ v → c ∈ v →
     float_lt a b = true → float_lt b c = true → float_lt a c = true) ∧
  (∀ a b c, a ∈ v → b ∈ v → c ∈ v →
     float_lt a b = false → float_lt b c = false → float_lt a c = false).

(** [i] is the position of a minimum of [v], and the first such position:
    nothing in [v] is below [v[i]], everything before [i] is above it. *)
Definition first_minimum (v : list float) (i : nat) : Prop :=
  ∃ c, v !! i = Some c ∧
       (∀ j c', v !! j = Some c' → float_lt c' c = false) ∧
       (∀ j c', j < i → v !! j = Some c' → float_lt c c' = true).

(** [predictor_.get() == NULL] *)
Definition no_predictor (m : model) : bool :=
  match predictor_ m with None => true | Some _ => false end.

(** The characters the traversal of the expressions hands to the functor,
    the binder being threaded from one expression to the next. *)
Fixpoint representation (binder : symbolic_binder) (es : list symbolic_expression)
  : list ascii :=
  match es with
  | [] => []
  | e :: es' => let '(cs, binder') := traverse e binder in cs ++ representation binder' es'
  end.

Definition prefix_char (e : symbolic_expressions_container) : ascii :=
  match order e with INDEPENDENT => "i"%char | SEQUENTIAL => "s"%char end.

(** Two descriptions look the same to the loop body for [op] when
    [FindMember] gives the same for [op] in both, or gives two objects in
    which [FindMember] gives the same for both names of [dtype]. *)
Definition same_for_operation (found found' : option Value) : Prop :=
  found = found' ∨
  ∃ per_op per_op', found = Some (JObject per_op) ∧ found' = Some (JObject per_op') ∧
                    ∀ dt, dt ∈ dtype → find_member per_op dt = find_member per_op' dt.

(** The model [import] builds from the templates of a leaf. *)
Definition imported_model (leaf : Value) (templates : list base) (queue : CommandQueue)
  : outcome model :=
  if decide (1 < length templates) then
    description ← member leaf "predictor";
    Ok (model_with_predictor (random_forest_of_json description) templates queue)
  else Ok (model_of_templates templates queue).

(** *** Vocabulary for the rest of the file *)

(** What slot [j] of the set receives from the templates, [i] being the
    index of the first of them: the [j]-th source of every template that
    generates more than [j] sources, in the order of the templates. *)
Fixpoint slot_sources (j i : nat) (templates : list base)
    (e : symbolic_expressions_container) (device : Device) : list string :=
  match templates with
  | [] => []
  | tpl :: templates' =>
      match generate tpl i e device !! j with
      | Some src => src :: slot_sources j (S i) templates' e device
      | None => slot_sources j (S i) templates' e device
      end
  end.

(** Every entry of the cache is empty (never built) or is a primary shell
    and a fallback shell carrying the name the entry is filed under. *)
Definition cache_wf (m : model) : Prop :=
  ∀ ctx pname,
    cache_entry m ctx pname = [] ∨
    ∃ c c_fb, cache_entry m ctx pname = [c; c_fb] ∧
              lc_name c = pname ∧ lc_name c_fb = (pname ++ "_fb")%string.

(** Every recorded override is the index of a template. *)
Definition override_wf (m : model) : Prop :=
  ∀ x label, hardcoded_ m !! x = Some label → label < length (templates_ m).

(** The commands the timing loop of [tune] submits for the templates from
    index [i] on. *)
Fixpoint tuning_commands (compilers : list lazy_compiler)
    (e : symbolic_expressions_container) (i : nat) (templates : list base)
  : list command :=
  match templates with
  | [] => []
  | tpl :: templates' =>
      enqueued tpl compilers i e :: finished :: tuning_commands compilers e (S i) templates'
  end.

(** The expression type a template is for (a [vaxpy] also serves
    [SCALAR_AXPY_TYPE] in [init_models]). *)
Definition template_kind (tpl : base) : expression_type :=
  match tpl with
  | vaxpy _ _ _ _ => VECTOR_AXPY_TYPE
  | reduction _ _ _ _ => REDUCTION_TYPE
  | maxpy _ _ _ _ _ _ => MATRIX_AXPY_TYPE
  | mreduction_rows _ _ _ _ _ => ROW_WISE_REDUCTION_TYPE
  | mreduction_cols _ _ _ _ _ => COL_WISE_REDUCTION_TYPE
  | mproduct_nn _ _ _ _ _ _ _ _ _ _ _ => MATRIX_PRODUCT_NN_TYPE
  | mproduct_tn _ _ _ _ _ _ _ _ _ _ _ => MATRIX_PRODUCT_TN_TYPE
  | mproduct_nt _ _ _ _ _ _ _ _ _ _ _ => MATRIX_PRODUCT_NT_TYPE
  | mproduct_tt _ _ _ _ _ _ _ _ _ _ _ => MATRIX_PRODUCT_TT_TYPE
  end.

(** Every map of the registry has a model for every key. *)
Definition registry_total
    (models : gmap Z (gmap (expression_type * numeric_type) model)) : Prop :=
  ∀ handle res, models !! handle = Some res → ∀ key, is_Some (res !! key).

(** [r'] is [r] but for keys [import] can write, and has every key of [r]. *)
Definition import_frame (r r' : gmap (expression_type * numeric_type) model) : Prop :=
  (∀ key, ¬ importable key → r' !! key = r !! key) ∧
  (∀ key, is_Some (r !! key) → is_Some (r' !! key)).

End Vocabulary.

(** ** A concrete backend to run the definitions on

    An expression is a size together with its representation, costs and
    durations are integers compared with [<], a forest predicts the list it
    was built from, a template reports the sizes of the expressions as
    input sizes and generates a primary and a fallback kernel. *)

Module Stub.

Definition forest_of_json (v : Value) : list Z :=
  match to_int_array v with
  | Ok l => l
  | Fail _ => []
  end.

Definition collaborators : Collaborators :=
  {| symbolic_expression := Z * list ascii;
     symbolic_binder := unit;
     bind_to_handle := ();
     bind_all_unique := ();
     traverse := fun e b => (e.2, b);
     float := Z;
     float_zero := 0%Z;
     float_lt := Z.ltb;
     random_forest := list Z;
     random_forest_of_json := forest_of_json;
     predict := fun forest _ => forest |}.

Definition templates : @Templates collaborators :=
  {| input_sizes := fun _ e => (fun x : Z * list ascii => x.1) <$> @data collaborators e;
     generate := fun _ i _ _ => ["kernel"; "fallback"] |}.

Definition device : Device := {| device_extensions := "cl_khr_fp64 cl_khr_icd" |}.

Definition queue : @CommandQueue collaborators :=
  {| queue_context := 7%Z; queue_device := device; queue_commands := [] |}.

(** One expression of size 64 on the queue's context: shape [[64]]. *)
Definition batch : @symbolic_expressions_container collaborators :=
  {| order := SEQUENTIAL;
     data := ([(64%Z, ["v"; "0"]%char)] : list (@symbolic_expression collaborators));
     context := 7%Z |}.

(** One expression with a representation of 300 characters. *)
Definition long_batch : @symbolic_expressions_container collaborators :=
  {| order := SEQUENTIAL;
     data := ([(64%Z, replicate 300 "x"%char)] : list (@symbolic_expression collaborators));
     context := 7%Z |}.

Definition v0 : base := vaxpy 1 64 128 FETCH_FROM_GLOBAL_STRIDED.
Definition v1 : base := vaxpy 2 64 128 FETCH_FROM_LOCAL.
Definition v2 : base := vaxpy 4 32 128 FETCH_FROM_GLOBAL_CONTIGUOUS.

(** Two variants, a forest that always prefers variant 1. *)
Definition two_variants : @model collaborators :=
  model_with_predictor ([5; 3]%Z : @random_forest collaborators) [v0; v1] queue.

(** The same with variant 0 recorded for shape [[64]]. *)
Definition two_variants_tuned : @model collaborators :=
  set_hardcoded two_variants (<[[64%Z] := 0]> ∅).

Definition one_variant : @model collaborators :=
  @model_of_template collaborators v0 queue.

Definition three_variants : @model collaborators :=
  model_with_predictor ([5; 3; 3]%Z : @random_forest collaborators) [v0; v1; v2] queue.

(** Durations 9 and 4 for variants 0 and 1. *)
Definition measured (i : nat) : Z :=
  match i with 0 => 9%Z | _ => 4%Z end.

(** An independent batch with the same expression. *)
Definition independent_batch : @symbolic_expressions_container collaborators :=
  {| order := INDEPENDENT;
     data := ([(64%Z, ["v"; "0"]%char)] : list (@symbolic_expression collaborators));
     context := 7%Z |}.

(** A description with one profile for vaxpy at float32. *)
Definition vaxpy_leaf : Value :=
  JObject [("profiles", JArray [JArray [JInt 1; JInt 64; JInt 128; JInt 1]])].

Definition vaxpy_document : Value :=
  JObject [("vaxpy", JObject [("float32", vaxpy_leaf)])].

End Stub.

(** * Properties *)

(** ** The outcome monad *)

Lemma bind_Ok_inv {A B : Type} (r : outcome A) (k : A → outcome B) (b : B) :
  r ≫= k = Ok b → ∃ a, r = Ok a ∧ k a = Ok b.
Proof. destruct r as [a|f]; simpl; [eauto | discriminate]. Qed.

Lemma bind_Ok {A B : Type} (a : A) (k : A → outcome B) : Ok a ≫= k = k a.
Proof. done. Qed.

Lemma bind_Fail {A B : Type} (f : failure) (k : A → outcome B) : Fail f ≫= k = Fail f.
Proof. done. Qed.

Lemma bind_Fail_inv {A B : Type} (r : outcome A) (k : A → outcome B) (f : failure) :
  r ≫= k = Fail f → r = Fail f ∨ ∃ a, r = Ok a ∧ k a = Fail f.
Proof. destruct r as [a|f']; simpl; [eauto | intros [= ->]; eauto]. Qed.

Lemma at_index_Ok {A : Type} (v : list A) (i : nat) (a : A) :
  v !! i = Some a → at_index v i = Ok a.
Proof. unfold at_index. by intros ->. Qed.

Lemma at_index_Ok_inv {A : Type} (v : list A) (i : nat) (a : A) :
  at_index v i = Ok a → v !! i = Some a.
Proof. unfold at_index. destruct (v !! i); by intros [= ->]. Qed.

(** Peel one [≫=] off a hypothesis [r ≫= k = Ok b]. *)
Ltac bind_inv H :=
  let a := fresh "a" in
  let E := fresh "E" in
  apply bind_Ok_inv in H; destruct H as (a & E & H).

Section Properties.
Context {C : Collaborators} {T : Templates}.

(** ** [std::min_element] *)

Lemma cost_order_prefix (pre rest : list float) :
  cost_order (pre ++ rest) → cost_order pre.
Proof.
  intros (Hirr & Htr & Hneg). repeat split.
  - intros a Ha. apply Hirr. set_solver.
  - intros a b c Ha Hb Hc. apply Htr; set_solver.
  - intros a b c Ha Hb Hc. apply Hneg; set_solver.
Qed.

Lemma first_minimum_snoc (pre : list float) (s : nat) (sv x : float) :
  cost_order (pre ++ [x]) → pre !! s = Some sv → first_minimum pre s →
  first_minimum (pre ++ [x])
    (if float_lt x sv then length pre else s).
Proof.
  intros (Hirr & Htr & Hneg) Hs (c & Hc & Hmin & Hfirst).
  assert (c = sv) as -> by congruence.
  assert (sv ∈ pre ++ [x]) as Hsv by (apply elem_of_app; left; by eapply list_elem_of_lookup_2).
  assert (x ∈ pre ++ [x]) as Hx by (apply elem_of_app; right; by apply list_elem_of_singleton).
  destruct (float_lt x sv) eqn:Hlt.
  - exists x. split; [by rewrite lookup_app_r, Nat.sub_diag|]. split.
    + intros j c' Hj.
      destruct (decide (j < length pre)) as [Hlen|Hlen].
      * rewrite lookup_app_l in Hj by done.
        assert (c' ∈ pre ++ [x]) by (apply elem_of_app; left; by eapply list_elem_of_lookup_2).
        destruct (float_lt c' x) eqn:Hc'; [|done].
        specialize (Hmin j c' Hj).
        rewrite (Htr c' x sv) in Hmin; eauto.
      * rewrite lookup_app_r in Hj by lia.
        destruct (j - length pre) as [|n] eqn:Hn; simpl in Hj; [|by destruct n].
        injection Hj as <-. by apply Hirr.
    + intros j c' Hlen Hj. rewrite lookup_app_l in Hj by done.
      assert (c' ∈ pre ++ [x]) by (apply elem_of_app; left; by eapply list_elem_of_lookup_2).
      destruct (float_lt x c') eqn:Hc'; [done|].
      rewrite (Hneg x c' sv) in Hlt; eauto.
  - exists sv. split; [by apply lookup_app_l_Some|]. split.
    + intros j c' Hj.
      destruct (decide (j < length pre)) as [Hlen|Hlen].
      * rewrite lookup_app_l in Hj by done. eauto.
      * rewrite lookup_app_r in Hj by lia.
        destruct (j - length pre) as [|n] eqn:Hn; simpl in Hj; [|by destruct n].
        by injection Hj as <-.
    + intros j c' Hlen Hj. apply lookup_lt_Some in Hs.
      rewrite lookup_app_l in Hj by lia. eauto.
Qed.

Lemma min_element_from_first (rest pre : list float) (s : nat) (sv : float) :
  cost_order (pre ++ rest) → pre !! s = Some sv → first_minimum pre s →
  first_minimum (pre ++ rest) (min_element_from s sv (length pre) rest).
Proof.
  revert pre s sv. induction rest as [|x rest IH]; intros pre s sv Hord Hs Hmin.
  - simpl. by rewrite app_nil_r.
  - simpl. replace (pre ++ x :: rest) with ((pre ++ [x]) ++ rest) in *
      by (by rewrite <- app_assoc).
    pose proof (first_minimum_snoc pre s sv x (cost_order_prefix _ _ Hord) Hs Hmin) as Hstep.
    replace (S (length pre)) with (length (pre ++ [x])) by (rewrite length_app; simpl; lia).
    destruct (float_lt x sv) eqn:Hlt.
    + apply IH; [done | by rewrite lookup_app_r, Nat.sub_diag | done].
    + apply IH; [done | by apply lookup_app_l_Some | done].
Qed.

Lemma min_element_first (v : list float) :
  v ≠ [] → cost_order v → first_minimum v (min_element v).
Proof.
  destruct v as [|x rest]; [done|]. intros _ Hord. simpl.
  apply (min_element_from_first rest [x] 0 x); [done | done |].
  exists x. split; [done|]. split.
  - intros [|j] c' Hj; simpl in Hj; [|done]. injection Hj as <-.
    destruct Hord as (Hirr & _). apply Hirr. set_solver.
  - intros j c' Hlt. lia.
Qed.

Lemma first_minimum_lt_length (v : list float) (i : nat) :
  first_minimum v i → i < length v.
Proof. intros (c & Hc & _). by eapply lookup_lt_Some. Qed.

(** ** The program cache *)

Lemma add_sources_length (cur : list string) (to_init to_init' : list lazy_compiler)
    (j : nat) :
  add_sources to_init j cur = Ok to_init' → length to_init' = length to_init.
Proof.
  revert to_init j. induction cur as [|src cur IH]; intros to_init j H; simpl in H.
  - by injection H as <-.
  - bind_inv H. apply IH in H. by rewrite length_insert in H.
Qed.

Lemma generate_all_length (templates : list base) (to_init to_init' : list lazy_compiler)
    (i : nat) (e : symbolic_expressions_container) (device : Device) :
  generate_all to_init i templates e device = Ok to_init' →
  length to_init' = length to_init.
Proof.
  revert to_init i. induction templates as [|tpl templates IH]; intros to_init i H; simpl in H.
  - by injection H as <-.
  - bind_inv H. apply IH in H. apply add_sources_length in E. congruence.
Qed.

Lemma add_sources_names (cur : list string) (to_init to_init' : list lazy_compiler)
    (j : nat) :
  add_sources to_init j cur = Ok to_init' → lc_name <$> to_init' = lc_name <$> to_init.
Proof.
  revert to_init j. induction cur as [|src cur IH]; intros to_init j H; simpl in H.
  - by injection H as <-.
  - bind_inv H. apply IH in H. rewrite H. apply at_index_Ok_inv in E.
    rewrite list_fmap_insert. simpl. apply list_insert_id.
    by rewrite list_lookup_fmap, E.
Qed.

Lemma generate_all_names (templates : list base) (to_init to_init' : list lazy_compiler)
    (i : nat) (e : symbolic_expressions_container) (device : Device) :
  generate_all to_init i templates e device = Ok to_init' →
  lc_name <$> to_init' = lc_name <$> to_init.
Proof.
  revert to_init i. induction templates as [|tpl templates IH]; intros to_init i H; simpl in H.
  - by injection H as <-.
  - bind_inv H. apply IH in H. apply add_sources_names in E. congruence.
Qed.

Lemma cache_entry_store (m : model) (ctx : Z) (pname : string) (v : list lazy_compiler) :
  cache_entry (cache_store m ctx pname v) ctx pname = v.
Proof.
  unfold cache_entry, cache_store. simpl.
  rewrite lookup_insert_eq. simpl. by rewrite lookup_insert_eq.
Qed.

(** [init] either finds a non-empty entry and returns it with the object
    untouched, or finds none (or an empty one), builds a set and stores it. *)
Lemma init_cases (m m1 : model) (e : symbolic_expressions_container) (ctx : Z)
    (device : Device) (force : bool) (set : list lazy_compiler) :
  init m e ctx device force = Ok (set, m1) →
  ∃ buf, fill_program_name e BIND_TO_HANDLE = Ok buf ∧
    ((cache_entry m ctx (c_string buf) = set ∧ set ≠ [] ∧ m1 = m) ∨
     (cache_entry m ctx (c_string buf) = [] ∧
      m1 = cache_store m ctx (c_string buf) set ∧
      generate_all
        [add (new_lazy_compiler ctx (c_string buf) force)
             (define_extension (device_extensions device) "cl_khr_fp64");
         add (new_lazy_compiler ctx (c_string buf ++ "_fb") force)
             (define_extension (device_extensions device) "cl_khr_fp64")]
        0 (templates_ m) e device = Ok set)).
Proof.
  unfold init. intros H. bind_inv H. exists a. split; [done|].
  destruct (cache_entry m ctx (c_string a)) as [|c cs] eqn:Hentry.
  - right. simpl in H. bind_inv H. injection H as <- <-. done.
  - left. by injection H as <- <-.
Qed.

Lemma init_frame (m m1 : model) (e : symbolic_expressions_container) (ctx : Z)
    (device : Device) (force : bool) (set : list lazy_compiler) :
  init m e ctx device force = Ok (set, m1) →
  templates_ m1 = templates_ m ∧ predictor_ m1 = predictor_ m ∧
  hardcoded_ m1 = hardcoded_ m ∧ queue_ m1 = queue_ m.
Proof.
  intros H. apply init_cases in H as (buf & _ & [(_ & _ & ->)|(_ & -> & _)]); done.
Qed.

(** After a successful [init] the entry for the key holds the returned set,
    and the set is not empty. *)
Lemma init_entry (m m1 : model) (e : symbolic_expressions_container) (ctx : Z)
    (device : Device) (force : bool) (set : list lazy_compiler) :
  init m e ctx device force = Ok (set, m1) →
  ∃ buf, fill_program_name e BIND_TO_HANDLE = Ok buf ∧
         cache_entry m1 ctx (c_string buf) = set ∧ set ≠ [].
Proof.
  intros H. apply init_cases in H as (buf & Hbuf & [(Hentry & Hne & ->)|(_ & -> & Hgen)]).
  - eauto.
  - exists buf. split; [done|]. split; [apply cache_entry_store|].
    apply generate_all_length in Hgen. by destruct set.
Qed.

Lemma init_hit (m : model) (e : symbolic_expressions_container) (ctx : Z)
    (device : Device) (force : bool) (buf : list ascii) (set : list lazy_compiler) :
  fill_program_name e BIND_TO_HANDLE = Ok buf →
  cache_entry m ctx (c_string buf) = set → set ≠ [] →
  init m e ctx device force = Ok (set, m).
Proof.
  intros Hbuf Hentry Hne. unfold init. rewrite Hbuf. simpl. rewrite Hentry.
  by destruct set.
Qed.

(** [init] returns as soon as the fingerprint fits its buffer and no
    template generates more sources than there are shells. *)
Lemma add_sources_runs (cur : list string) (to_init : list lazy_compiler) (j : nat) :
  j + length cur ≤ length to_init → ∃ to_init', add_sources to_init j cur = Ok to_init'.
Proof.
  revert to_init j. induction cur as [|src cur IH]; intros to_init j Hlen; simpl in *.
  - eauto.
  - destruct (lookup_lt_is_Some_2 to_init j) as [c Hc]; [lia|].
    rewrite (at_index_Ok _ _ _ Hc), bind_Ok. apply IH. rewrite length_insert. lia.
Qed.

Lemma generate_all_runs (templates : list base) (to_init : list lazy_compiler) (i : nat)
    (e : symbolic_expressions_container) (device : Device) :
  (∀ k tpl, templates !! k = Some tpl →
            length (generate tpl (i + k) e device) ≤ length to_init) →
  ∃ to_init', generate_all to_init i templates e device = Ok to_init'.
Proof.
  revert to_init i. induction templates as [|tpl templates IH]; intros to_init i Hgen; simpl.
  - eauto.
  - destruct (add_sources_runs (generate tpl i e device) to_init 0) as [to_init1 Hadd].
    { specialize (Hgen 0 tpl eq_refl). rewrite Nat.add_0_r in Hgen. simpl. lia. }
    rewrite Hadd, bind_Ok. apply IH. intros k tpl' Hk.
    rewrite (add_sources_length _ _ _ _ Hadd).
    specialize (Hgen (S k) tpl' Hk). by rewrite Nat.add_succ_r in Hgen.
Qed.

Lemma init_runs (m : model) (e : symbolic_expressions_container) (ctx : Z)
    (device : Device) (force : bool) (buf : list ascii) :
  fill_program_name e BIND_TO_HANDLE = Ok buf →
  (∀ k tpl, templates_ m !! k = Some tpl → length (generate tpl k e device) ≤ 2) →
  ∃ set m1, init m e ctx device force = Ok (set, m1).
Proof.
  intros Hbuf Hgen. unfold init. rewrite Hbuf, bind_Ok.
  destruct (cache_entry m ctx (c_string buf)) as [|c cs]; [|eauto]. simpl.
  edestruct (generate_all_runs (templates_ m)) as [set ->]; [|rewrite bind_Ok; eauto].
  intros k tpl Hk. simpl. by apply Hgen.
Qed.

(** C7.  The cache fill is idempotent: once [init] has returned a set for a
    context and a batch, [init] on the resulting object, for the same
    context and any batch with the same bind-to-handle fingerprint, returns
    that very set and leaves the object (hence the cache and every source
    list in it) as it is, whatever the device and the recompilation flag. *)
Theorem init_idempotent (m m1 : model) (e e' : symbolic_expressions_container)
    (ctx : Z) (device device' : Device) (force force' : bool)
    (set : list lazy_compiler) :
  init m e ctx device force = Ok (set, m1) →
  fill_program_name e' BIND_TO_HANDLE = fill_program_name e BIND_TO_HANDLE →
  init m1 e' ctx device' force' = Ok (set, m1).
Proof.
  intros H Hsame. apply init_entry in H as (buf & Hbuf & Hentry & Hne).
  rewrite <- Hsame in Hbuf. by eapply init_hit.
Qed.

(** C8 (as the code has it).  A set that [init] builds has exactly two
    program shells whatever the number of templates: the one named by the
    fingerprint and the fallback named fingerprint + "_fb". *)
Theorem init_builds_two_shells (m m1 : model) (e : symbolic_expressions_container)
    (ctx : Z) (device : Device) (force : bool) (buf : list ascii)
    (set : list lazy_compiler) :
  fill_program_name e BIND_TO_HANDLE = Ok buf →
  cache_entry m ctx (c_string buf) = [] →
  init m e ctx device force = Ok (set, m1) →
  length set = 2 ∧
  lc_name <$> set = [c_string buf; (c_string buf ++ "_fb")%string].
Proof.
  intros Hbuf Hentry H.
  apply init_cases in H as (buf' & Hbuf' & [(Hentry' & Hne & _)|(_ & _ & Hgen)]).
  - congruence.
  - assert (buf' = buf) as -> by congruence.
    split; [by apply generate_all_length in Hgen | by apply generate_all_names in Hgen].
Qed.

(** ** execute *)

Lemma choose_label_frame (m m1 : model) (bypass : bool) (x : list Z) :
  hardcoded_ m1 = hardcoded_ m → predictor_ m1 = predictor_ m →
  choose_label m1 bypass x = choose_label m bypass x.
Proof. unfold choose_label. by intros -> ->. Qed.

(** [execute] step by step, once each step is known to go through. *)
Lemma execute_selects (m m1 : model) (e : symbolic_expressions_container)
    (bypass force : bool) (compilers : list lazy_compiler) (tpl0 tpl : base)
    (label : nat) :
  check_context m e = Ok () →
  init m e (context e) (queue_device (queue_ m)) force = Ok (compilers, m1) →
  templates_ m !! 0 = Some tpl0 →
  choose_label m (bypass || no_predictor m) (input_sizes tpl0 e) = Ok label →
  templates_ m !! label = Some tpl →
  execute m e bypass force
  = Ok (set_queue m1 (submit (queue_ m1) (enqueued tpl compilers label e))).
Proof.
  intros Hctx Hinit H0 Hlabel Htpl. unfold execute. rewrite Hctx. simpl.
  rewrite Hinit. simpl.
  destruct (init_frame _ _ _ _ _ _ _ Hinit) as (Ht & Hp & Hh & Hq).
  rewrite Ht, (at_index_Ok _ _ _ H0). simpl.
  rewrite (choose_label_frame m m1) by done.
  fold (no_predictor m). rewrite Hlabel. simpl.
  unfold enqueue. rewrite Ht, (at_index_Ok _ _ _ Htpl). done.
Qed.

(** C1.  Override priority: when the shape of the batch has an entry in
    [hardcoded_], [execute] enqueues the template at the recorded label,
    with that label, whatever [bypass_predictor] is and whether or not a
    predictor is attached (and whatever it would predict). *)
Theorem execute_override_wins (m m1 : model) (e : symbolic_expressions_container)
    (bypass force : bool) (compilers : list lazy_compiler) (tpl0 tpl : base)
    (label : nat) :
  check_context m e = Ok () →
  init m e (context e) (queue_device (queue_ m)) force = Ok (compilers, m1) →
  templates_ m !! 0 = Some tpl0 →
  hardcoded_ m !! input_sizes tpl0 e = Some label →
  templates_ m !! label = Some tpl →
  execute m e bypass force
  = Ok (set_queue m1 (submit (queue_ m1) (enqueued tpl compilers label e))).
Proof.
  intros Hctx Hinit H0 Hhard Htpl. eapply execute_selects; eauto.
  unfold choose_label. by rewrite Hhard.
Qed.

(** C4.  With no override for the shape, [bypass_predictor] false and a
    predictor attached that scores every template, [execute] enqueues the
    template at the position of the minimum of the predicted costs, the
    first such position when the minimum is shared. *)
Theorem execute_predicted_minimum (m m1 : model) (e : symbolic_expressions_container)
    (force : bool) (compilers : list lazy_compiler) (tpl0 : base)
    (predictor : random_forest) :
  check_context m e = Ok () →
  init m e (context e) (queue_device (queue_ m)) force = Ok (compilers, m1) →
  templates_ m !! 0 = Some tpl0 →
  hardcoded_ m !! input_sizes tpl0 e = None →
  predictor_ m = Some predictor →
  length (predict predictor (input_sizes tpl0 e)) = length (templates_ m) →
  cost_order (predict predictor (input_sizes tpl0 e)) →
  ∃ label tpl,
    templates_ m !! label = Some tpl ∧
    execute m e false force
    = Ok (set_queue m1 (submit (queue_ m1) (enqueued tpl compilers label e))) ∧
    label = min_element (predict predictor (input_sizes tpl0 e)) ∧
    first_minimum (predict predictor (input_sizes tpl0 e)) label.
Proof.
  intros Hctx Hinit H0 Hhard Hpred Hlen Hord.
  set (costs := predict predictor (input_sizes tpl0 e)) in *.
  assert (costs ≠ []) as Hne.
  { intros Hnil. rewrite Hnil in Hlen. apply lookup_lt_Some in H0. simpl in Hlen. lia. }
  pose proof (min_element_first costs Hne Hord) as Hmin.
  pose proof (first_minimum_lt_length _ _ Hmin) as Hlt.
  rewrite Hlen in Hlt. apply lookup_lt_is_Some_2 in Hlt as [tpl Htpl].
  exists (min_element costs), tpl. split; [done|]. split; [|done].
  eapply execute_selects; eauto.
  unfold choose_label, no_predictor. by rewrite Hhard, Hpred.
Qed.

(** C5.  Bypass default: with no override for the shape, [execute] enqueues
    template 0 with label 0 as soon as [bypass_predictor] is set or no
    predictor is attached (then for either value of [bypass_predictor]). *)
Theorem execute_default_variant (m m1 : model) (e : symbolic_expressions_container)
    (bypass force : bool) (compilers : list lazy_compiler) (tpl0 : base) :
  check_context m e = Ok () →
  init m e (context e) (queue_device (queue_ m)) force = Ok (compilers, m1) →
  templates_ m !! 0 = Some tpl0 →
  hardcoded_ m !! input_sizes tpl0 e = None →
  bypass = true ∨ predictor_ m = None →
  execute m e bypass force
  = Ok (set_queue m1 (submit (queue_ m1) (enqueued tpl0 compilers 0 e))).
Proof.
  intros Hctx Hinit H0 Hhard Hby. eapply execute_selects; eauto.
  unfold choose_label, no_predictor. rewrite Hhard.
  destruct Hby as [-> | ->]; [done | by rewrite orb_true_r].
Qed.

(** C10.  [execute] leaves [hardcoded_] as it found it. *)
Theorem execute_keeps_hardcoded (m m' : model) (e : symbolic_expressions_container)
    (bypass force : bool) :
  execute m e bypass force = Ok m' → hardcoded_ m' = hardcoded_ m.
Proof.
  unfold execute. intros H.
  bind_inv H. bind_inv H. destruct a0 as [compilers m1].
  bind_inv H. bind_inv H. unfold enqueue in H. bind_inv H.
  injection H as <-. simpl. by apply init_frame in E0 as (_ & _ & -> & _).
Qed.

(** ** tune *)

(** The timing loop runs to its end, overwrites slot [i], [i+1], ... of
    [timings] with the measurements, and touches nothing of the object but
    the queue's command list. *)
Lemma collect_timings_runs (count : nat) (m : model) (compilers : list lazy_compiler)
    (e : symbolic_expressions_container) (timer_get : nat → float)
    (timings : list float) (i : nat) :
  i + count = length (templates_ m) → length timings = length (templates_ m) →
  ∃ m', collect_timings m compilers e timer_get timings i count
        = Ok (take i timings ++ (timer_get <$> seq i count), m') ∧
        templates_ m' = templates_ m ∧ predictor_ m' = predictor_ m ∧
        hardcoded_ m' = hardcoded_ m ∧ lazy_programs_ m' = lazy_programs_ m ∧
        queue_context (queue_ m') = queue_context (queue_ m) ∧
        queue_device (queue_ m') = queue_device (queue_ m).
Proof.
  revert m timings i. induction count as [|count IH]; intros m timings i Hi Hlen.
  - exists m. simpl. rewrite app_nil_r, take_ge by lia. done.
  - simpl. unfold enqueue.
    destruct (lookup_lt_is_Some_2 (templates_ m) i) as [tpl Htpl]; [lia|].
    destruct (lookup_lt_is_Some_2 timings i) as [old Hold]; [lia|].
    rewrite (at_index_Ok _ _ _ Htpl). simpl.
    rewrite (at_index_Ok _ _ _ Hold). simpl.
    edestruct (IH (set_queue
                     (set_queue m (submit (queue_ m) (enqueued tpl compilers i e)))
                     (submit (submit (queue_ m) (enqueued tpl compilers i e)) finished))
                  (<[i := timer_get i]> timings) (S i))
      as (m' & Hrun & Hfields); [simpl; lia | by rewrite length_insert |].
    exists m'. split; [|exact Hfields].
    rewrite Hrun. do 2 f_equal.
    rewrite (take_S_r _ _ (timer_get i)) by (apply list_lookup_insert_eq; lia).
    rewrite take_insert_ge by lia. by rewrite <- app_assoc.
Qed.

(** C6.  [tune] runs to its end and stores, for the shape of the batch, the
    position of the minimum of the measured durations, the first such
    position when the minimum is shared; every later [execute] of the batch
    on the tuned object enqueues that template with that label. *)
Theorem tune_records_fastest (m m1 : model) (e : symbolic_expressions_container)
    (timer_get : nat → float) (compilers : list lazy_compiler) (tpl0 : base) :
  check_context m e = Ok () →
  init m e (context e) (queue_device (queue_ m)) false = Ok (compilers, m1) →
  templates_ m !! 0 = Some tpl0 →
  cost_order (timer_get <$> seq 0 (length (templates_ m))) →
  ∃ m' label tpl,
    tune m e timer_get = Ok m' ∧
    label = min_element (timer_get <$> seq 0 (length (templates_ m))) ∧
    first_minimum (timer_get <$> seq 0 (length (templates_ m))) label ∧
    hardcoded_ m' = <[input_sizes tpl0 e := label]> (hardcoded_ m) ∧
    templates_ m' !! label = Some tpl ∧
    ∀ bypass force,
      execute m' e bypass force
      = Ok (set_queue m' (submit (queue_ m') (enqueued tpl compilers label e))).
Proof.
  intros Hctx Hinit H0 Hord.
  set (timings := timer_get <$> seq 0 (length (templates_ m))) in *.
  destruct (init_frame _ _ _ _ _ _ _ Hinit) as (Ht & Hp & Hh & Hq).
  destruct (collect_timings_runs (length (templates_ m1)) m1 compilers e timer_get
              (replicate (length (templates_ m1)) float_zero) 0)
    as (m2 & Hrun & Ht2 & Hp2 & Hh2 & Hl2 & Hqc & Hqd);
    [done | by rewrite length_replicate |].
  rewrite take_0 in Hrun. simpl in Hrun. rewrite Ht in Hrun. fold timings in Hrun.
  assert (timings ≠ []) as Hne.
  { apply lookup_lt_Some in H0. unfold timings.
    destruct (length (templates_ m)); [lia | done]. }
  pose proof (min_element_first timings Hne Hord) as Hmin.
  pose proof (first_minimum_lt_length _ _ Hmin) as Hlt.
  unfold timings in Hlt at 2. rewrite length_fmap, length_seq in Hlt.
  apply lookup_lt_is_Some_2 in Hlt as [tpl Htpl].
  set (m' := set_hardcoded m2 (<[input_sizes tpl0 e := min_element timings]> (hardcoded_ m2))).
  assert (tune m e timer_get = Ok m') as Htune.
  { unfold tune. rewrite Hctx. simpl. rewrite Hinit. simpl.
    rewrite Ht, Hrun. simpl. rewrite Ht2, Ht, (at_index_Ok _ _ _ H0). done. }
  exists m', (min_element timings), tpl. split; [done|]. split; [done|].
  split; [done|]. split; [simpl; congruence|].
  split; [simpl; congruence|]. intros bypass force.
  apply init_entry in Hinit as (buf & Hbuf & Hentry & Hnonempty).
  eapply execute_selects.
  - unfold check_context in *. simpl. rewrite Hqc, Hq. exact Hctx.
  - eapply init_hit; [exact Hbuf | | exact Hnonempty].
    unfold cache_entry in *. simpl. by rewrite Hl2.
  - simpl. rewrite Ht2, Ht. exact H0.
  - unfold choose_label. simpl. by rewrite lookup_insert_eq.
  - simpl. congruence.
Qed.

(** ** The fingerprint *)

Lemma store_fits (buf : list ascii) (c : ascii) :
  length buf < program_name_size → store buf c = Ok (buf ++ [c]).
Proof. intros H. unfold store. by rewrite decide_True. Qed.

Lemma store_overflows (buf : list ascii) (c : ascii) :
  program_name_size ≤ length buf → store buf c = Fail undefined_behaviour.
Proof. intros H. unfold store. rewrite decide_False; [done | lia]. Qed.

Lemma store_all_cons (buf : list ascii) (c : ascii) (cs : list ascii) :
  store_all buf (c :: cs) = store buf c ≫= λ buf', store_all buf' cs.
Proof. done. Qed.

Lemma store_all_fits (cs buf : list ascii) :
  length buf + length cs ≤ program_name_size → store_all buf cs = Ok (buf ++ cs).
Proof.
  revert buf. induction cs as [|c cs IH]; intros buf Hlen.
  - by rewrite app_nil_r.
  - simpl in Hlen. rewrite store_all_cons, store_fits by lia. simpl.
    rewrite IH by (rewrite length_app; simpl; lia). by rewrite <- app_assoc.
Qed.

Lemma store_all_overflows (cs buf : list ascii) :
  length buf ≤ program_name_size →
  program_name_size < length buf + length cs →
  store_all buf cs = Fail undefined_behaviour.
Proof.
  revert buf. induction cs as [|c cs IH]; intros buf Hbuf Hlen.
  - simpl in Hlen. lia.
  - rewrite store_all_cons.
    destruct (decide (length buf < program_name_size)) as [Hfit|Hfull].
    + rewrite store_fits by done. simpl.
      apply IH; rewrite length_app; simpl in *; lia.
    + by rewrite store_overflows by lia.
Qed.

Lemma traverse_all_fits (es : list symbolic_expression) (buf : list ascii)
    (binder : symbolic_binder) :
  length buf + length (representation binder es) ≤ program_name_size →
  ∃ binder', for_each traverse_into (buf, binder) es
             = Ok (buf ++ representation binder es, binder').
Proof.
  revert buf binder. induction es as [|e es IH]; intros buf binder Hlen; simpl in *.
  - exists binder. by rewrite app_nil_r.
  - destruct (traverse e binder) as [cs binder1]. rewrite length_app in Hlen.
    rewrite store_all_fits by lia. simpl.
    destruct (IH (buf ++ cs) binder1) as [binder' ->]; [rewrite length_app; lia|].
    exists binder'. by rewrite <- app_assoc.
Qed.

Lemma traverse_all_overflows (es : list symbolic_expression) (buf : list ascii)
    (binder : symbolic_binder) :
  length buf ≤ program_name_size →
  program_name_size < length buf + length (representation binder es) →
  for_each traverse_into (buf, binder) es = Fail undefined_behaviour.
Proof.
  revert buf binder. induction es as [|e es IH]; intros buf binder Hbuf Hlen; simpl in *.
  - lia.
  - destruct (traverse e binder) as [cs binder1]. rewrite length_app in Hlen.
    destruct (decide (length buf + length cs ≤ program_name_size)) as [Hfit|Hover].
    + rewrite store_all_fits by done. simpl.
      apply IH; rewrite length_app; lia.
    + by rewrite store_all_overflows by lia.
Qed.

(** C9 (as the code has it).  [fill_program_name] compares nothing with the
    size of the buffer.  When the prefix, the characters of the traversal
    and the terminating NUL fit the 256 bytes, the buffer holds exactly
    these, nothing cut; when they do not, a character is stored past the
    end of the array, which is undefined behaviour and not a checked
    failure. *)
Theorem fill_program_name_unchecked (e : symbolic_expressions_container)
    (binding_policy : binding_policy_t) :
  fill_program_name e binding_policy
  = if decide (length (representation (new_binder binding_policy) (data e)) + 2
               ≤ program_name_size)
    then Ok (prefix_char e :: representation (new_binder binding_policy) (data e) ++ [zero])
    else Fail undefined_behaviour.
Proof.
  unfold fill_program_name. rewrite store_fits by (unfold program_name_size; simpl; lia).
  simpl. fold (prefix_char e).
  set (r := representation (new_binder binding_policy) (data e)).
  destruct (decide (length r + 2 ≤ program_name_size)) as [Hfit|Hover].
  - destruct (traverse_all_fits (data e) [prefix_char e] (new_binder binding_policy))
      as [binder' ->]; [simpl; fold r; lia|].
    simpl. fold r. rewrite store_fits by (simpl; lia). done.
  - destruct (decide (length r + 1 ≤ program_name_size)) as [Hfit1|Hover1].
    + destruct (traverse_all_fits (data e) [prefix_char e] (new_binder binding_policy))
        as [binder' ->]; [simpl; fold r; lia|].
      simpl. fold r. rewrite store_overflows by (simpl; lia). done.
    + rewrite traverse_all_overflows; [done | simpl; unfold program_name_size; lia |].
      simpl. fold r. lia.
Qed.

End Properties.

(** ** The importer *)

Lemma for_each_ext {A S : Type} (f g : S → A → outcome S) (l : list A) (s : S) :
  (∀ s' a, a ∈ l → f s' a = g s' a) → for_each f s l = for_each g s l.
Proof.
  revert s. induction l as [|a l IH]; intros s Hfg; simpl; [done|].
  rewrite Hfg by set_solver. destruct (g s a) as [s'|]; simpl; [|done].
  apply IH. intros s'' b Hb. apply Hfg. set_solver.
Qed.

(** Members under another name do not matter to [FindMember]. *)
Lemma find_member_other (before after : list (string * Value)) (name other : string)
    (v : Value) :
  other ≠ name →
  find_member (before ++ (other, v) :: after) name = find_member (before ++ after) name.
Proof.
  intros Hne. induction before as [|[k x] before IH]; simpl.
  - by apply String.eqb_neq in Hne as ->.
  - by rewrite IH.
Qed.

Lemma no_invalid_argument_Ok {A : Type} (a : A) : no_invalid_argument (Ok a).
Proof. by intros what. Qed.

Lemma no_invalid_argument_bind {A B : Type} (r : outcome A) (k : A → outcome B) :
  no_invalid_argument r → (∀ a, no_invalid_argument (k a)) →
  no_invalid_argument (r ≫= k).
Proof.
  intros Hr Hk what H. apply bind_Fail_inv in H as [H | (a & _ & H)].
  - by eapply Hr.
  - by eapply Hk.
Qed.

Lemma no_invalid_argument_for_each {A S : Type} (f : S → A → outcome S) (l : list A)
    (s : S) :
  (∀ s' a, a ∈ l → no_invalid_argument (f s' a)) →
  no_invalid_argument (for_each f s l).
Proof.
  revert s. induction l as [|a l IH]; intros s Hf; simpl.
  - apply no_invalid_argument_Ok.
  - apply no_invalid_argument_bind; [apply Hf; set_solver|].
    intros s'. apply IH. intros s'' b Hb. apply Hf. set_solver.
Qed.

Lemma no_invalid_argument_at_index {A : Type} (v : list A) (i : nat) :
  no_invalid_argument (at_index v i).
Proof. unfold at_index. by destruct (v !! i); intros what. Qed.

Lemma no_invalid_argument_member (v : Value) (name : string) :
  no_invalid_argument (member v name).
Proof.
  destruct v; try by intros what. simpl.
  by destruct (find_member members name); intros what.
Qed.

Lemma no_invalid_argument_HasMember (v : Value) (name : string) :
  no_invalid_argument (HasMember v name).
Proof. by destruct v; intros what. Qed.

Lemma no_invalid_argument_to_int_array (v : Value) :
  no_invalid_argument (to_int_array v).
Proof.
  destruct v; try by intros what. simpl.
  apply no_invalid_argument_for_each. intros acc x _.
  apply no_invalid_argument_bind; [by destruct x; intros what|].
  intros z. apply no_invalid_argument_Ok.
Qed.

Lemma no_invalid_argument_fetch_at (a : list Z) (i : nat) :
  no_invalid_argument (detail.fetch_at a i).
Proof.
  apply no_invalid_argument_bind; [apply no_invalid_argument_at_index|].
  intros z. case_decide; [apply no_invalid_argument_at_index | by intros what].
Qed.

Create HintDb importer.

#[local] Hint Resolve no_invalid_argument_Ok no_invalid_argument_at_index
  no_invalid_argument_member no_invalid_argument_HasMember
  no_invalid_argument_to_int_array no_invalid_argument_fetch_at : importer.

(** Peel the [≫=] of a goal [no_invalid_argument (r ≫= k)]. *)
Ltac no_throw :=
  repeat first
    [ apply no_invalid_argument_bind; [solve [auto with importer] | intros ?]
    | solve [auto with importer] ].

Lemma no_invalid_argument_create_mproduct mk (a : list Z) :
  no_invalid_argument (detail.create_mproduct mk a).
Proof. unfold detail.create_mproduct. no_throw. Qed.

Lemma operations_cases (op : string) :
  op ∈ operations →
  op = "vaxpy" ∨ op = "dot" ∨ op = "maxpy" ∨ op = "gemvN" ∨ op = "gemvT" ∨
  op = "gemmNN" ∨ op = "gemmTN" ∨ op = "gemmTT".
Proof. unfold operations. rewrite !elem_of_cons, elem_of_nil. tauto. Qed.

Lemma dtype_cases (dt : string) : dt ∈ dtype → dt = "float32" ∨ dt = "float64".
Proof. unfold dtype. rewrite !elem_of_cons, elem_of_nil. tauto. Qed.

(** Every name of [operations] reaches a constructor in [create]. *)
Lemma no_invalid_argument_create (op : string) (a : list Z) :
  op ∈ operations → no_invalid_argument (detail.create op a).
Proof.
  intros Hop. apply operations_cases in Hop.
  destruct Hop as [->|[->|[->|[->|[->|[->|[->| ->]]]]]]];
    unfold detail.create; simpl;
    solve [no_throw | apply no_invalid_argument_create_mproduct].
Qed.

Lemma get_expression_type_listed (op : string) :
  op ∈ operations → ∃ etype, detail.get_expression_type op = Ok etype.
Proof.
  intros Hop. apply operations_cases in Hop.
  destruct Hop as [->|[->|[->|[->|[->|[->|[->| ->]]]]]]]; by eexists.
Qed.

Lemma get_dtype_listed (dt : string) :
  dt ∈ dtype → ∃ t, detail.get_dtype dt = Ok t.
Proof. intros Hdt. apply dtype_cases in Hdt. destruct Hdt as [-> | ->]; by eexists. Qed.

Section ImporterProperties.
Context {C : Collaborators}.

Lemma no_invalid_argument_get_profiles (op : string) (profiles : Value) :
  op ∈ operations → no_invalid_argument (get_profiles op profiles).
Proof.
  intros Hop. unfold get_profiles.
  apply no_invalid_argument_bind; [by destruct profiles; intros what|]. intros size.
  apply no_invalid_argument_for_each. intros templates id _.
  apply no_invalid_argument_bind.
  { destruct profiles; try by intros what. simpl.
    by destruct (elements !! id); intros what. }
  intros profile. apply no_invalid_argument_bind; [auto with importer|]. intros a.
  apply no_invalid_argument_bind; [by apply no_invalid_argument_create|]. intros tpl.
  apply no_invalid_argument_Ok.
Qed.

Lemma no_invalid_argument_import_dtype (document : Value) (queue : CommandQueue)
    (op dt : string) (etype : expression_type)
    (result : gmap (expression_type * numeric_type) model) :
  op ∈ operations → dt ∈ dtype →
  no_invalid_argument (import_dtype document queue op etype result dt).
Proof.
  intros Hop Hdt. unfold import_dtype.
  apply no_invalid_argument_bind; [auto with importer|]. intros per_op.
  apply no_invalid_argument_bind; [auto with importer|]. intros [|]; [|auto with importer].
  destruct (get_dtype_listed dt Hdt) as [t ->]. simpl.
  apply no_invalid_argument_bind; [auto with importer|]. intros leaf.
  apply no_invalid_argument_bind; [auto with importer|]. intros profiles.
  apply no_invalid_argument_bind; [by apply no_invalid_argument_get_profiles|].
  intros templates. case_decide; [|auto with importer].
  apply no_invalid_argument_bind; auto with importer.
Qed.

Lemma no_invalid_argument_import (document : Value) (queue : CommandQueue)
    (result : gmap (expression_type * numeric_type) model) :
  no_invalid_argument (import document queue result).
Proof.
  unfold import. apply no_invalid_argument_for_each. intros r op Hop.
  unfold import_operation.
  apply no_invalid_argument_bind; [auto with importer|]. intros [|]; [|auto with importer].
  destruct (get_expression_type_listed op Hop) as [etype ->]. rewrite bind_Ok.
  apply no_invalid_argument_for_each. intros r' dt Hdt.
  by apply no_invalid_argument_import_dtype.
Qed.

Lemma import_dtype_same (members members' : list (string * Value))
    (queue : CommandQueue) (op dt : string) (etype : expression_type)
    (result : gmap (expression_type * numeric_type) model) :
  same_for_operation (find_member members op) (find_member members' op) →
  dt ∈ dtype →
  import_dtype (JObject members) queue op etype result dt
  = import_dtype (JObject members') queue op etype result dt.
Proof.
  intros [Hsame | (per_op & per_op' & Hfound & Hfound' & Hsame)] Hdt;
    unfold import_dtype, member.
  - by rewrite Hsame.
  - rewrite Hfound, Hfound'. simpl. by rewrite (Hsame dt Hdt).
Qed.

Lemma import_operation_same (members members' : list (string * Value))
    (queue : CommandQueue) (op : string)
    (result : gmap (expression_type * numeric_type) model) :
  same_for_operation (find_member members op) (find_member members' op) →
  import_operation (JObject members) queue result op
  = import_operation (JObject members') queue result op.
Proof.
  intros Hsame. unfold import_operation, HasMember.
  assert (bool_decide (is_Some (find_member members op))
          = bool_decide (is_Some (find_member members' op))) as ->.
  { destruct Hsame as [-> | (per_op & per_op' & -> & -> & _)]; [done|].
    by rewrite !bool_decide_eq_true_2. }
  rewrite bind_Ok. destruct (bool_decide (is_Some (find_member members' op))); [|done].
  destruct (detail.get_expression_type op) as [etype|]; [|done]. rewrite !bind_Ok.
  apply for_each_ext. intros r dt Hdt. by apply import_dtype_same.
Qed.

Lemma import_same (members members' : list (string * Value)) (queue : CommandQueue)
    (result : gmap (expression_type * numeric_type) model) :
  (∀ op, op ∈ operations →
     same_for_operation (find_member members op) (find_member members' op)) →
  import (JObject members) queue result = import (JObject members') queue result.
Proof.
  intros Hsame. unfold import. apply for_each_ext. intros r op Hop.
  apply import_operation_same. by apply Hsame.
Qed.

Lemma find_member_changed (before after : list (string * Value)) (op name : string)
    (v v' : Value) :
  find_member (before ++ (op, v) :: after) name
  = find_member (before ++ (op, v') :: after) name ∨
  (find_member (before ++ (op, v) :: after) name = Some v ∧
   find_member (before ++ (op, v') :: after) name = Some v').
Proof.
  induction before as [|[k x] before IH]; simpl.
  - destruct (String.eqb op name); auto.
  - destruct (String.eqb k name); auto.
Qed.

(** The two loops of [import] ask the document for names of their own
    lists and never enumerate its members: a member under a name that is
    in neither list does not change what [import] does. *)
Lemma import_same_without_member
    (before after per_op_before per_op_after : list (string * Value))
    (name op dtype_name : string) (v dv : Value) (queue : CommandQueue)
    (result : gmap (expression_type * numeric_type) model) :
  name ∉ operations → dtype_name ∉ dtype →
  import (JObject (before ++ (name, v) :: after)) queue result
  = import (JObject (before ++ after)) queue result ∧
  import (JObject (before ++
            (op, JObject (per_op_before ++ (dtype_name, dv) :: per_op_after)) :: after))
         queue result
  = import (JObject (before ++ (op, JObject (per_op_before ++ per_op_after)) :: after))
           queue result ∧
  no_invalid_argument (import (JObject (before ++ (name, v) :: after)) queue result) ∧
  no_invalid_argument
    (import (JObject (before ++
               (op, JObject (per_op_before ++ (dtype_name, dv) :: per_op_after)) :: after))
            queue result).
Proof.
  intros Hname Hdtype. repeat split.
  - apply import_same. intros op' Hop'. left.
    apply find_member_other. by intros ->.
  - apply import_same. intros op' Hop'.
    destruct (find_member_changed before after op op'
                (JObject (per_op_before ++ (dtype_name, dv) :: per_op_after))
                (JObject (per_op_before ++ per_op_after))) as [Heq | [Hl Hr]].
    + by left.
    + right. eexists _, _. split; [exact Hl|]. split; [exact Hr|].
      intros dt Hdt. apply find_member_other. by intros ->.
  - apply no_invalid_argument_import.
  - apply no_invalid_argument_import.
Qed.

(** C3 (as the code has it).  A member of the description under an
    operation name outside the recognized set (a name
    [get_expression_type] rejects), or, below an operation, under a
    data-type name outside float32 and float64 (a name [get_dtype]
    rejects), does not make [import] fail: [import] never enumerates the
    members, so the outcome is what it is without that member, and it is
    never a thrown [std::invalid_argument]. *)
Theorem import_ignores_unknown_names
    (before after per_op_before per_op_after : list (string * Value))
    (name op dtype_name : string) (v dv : Value) (queue : CommandQueue)
    (result : gmap (expression_type * numeric_type) model) :
  detail.get_expression_type name
  = Fail (invalid_argument ("Invalid expression: " ++ name)) →
  detail.get_dtype dtype_name
  = Fail (invalid_argument ("Invalid datatype: " ++ dtype_name)) →
  import (JObject (before ++ (name, v) :: after)) queue result
  = import (JObject (before ++ after)) queue result ∧
  import (JObject (before ++
            (op, JObject (per_op_before ++ (dtype_name, dv) :: per_op_after)) :: after))
         queue result
  = import (JObject (before ++ (op, JObject (per_op_before ++ per_op_after)) :: after))
           queue result ∧
  no_invalid_argument (import (JObject (before ++ (name, v) :: after)) queue result) ∧
  no_invalid_argument
    (import (JObject (before ++
               (op, JObject (per_op_before ++ (dtype_name, dv) :: per_op_after)) :: after))
            queue result).
Proof.
  intros Hname Hdtype. apply import_same_without_member.
  - intros Hin. destruct (get_expression_type_listed name Hin) as [etype Hetype].
    congruence.
  - intros Hin. destruct (get_dtype_listed dtype_name Hin) as [t Ht]. congruence.
Qed.

Lemma member_single (k : string) (v : Value) : member (JObject [(k, v)]) k = Ok v.
Proof. simpl. by rewrite String.eqb_refl. Qed.

Lemma HasMember_single (k name : string) (v : Value) :
  HasMember (JObject [(k, v)]) name = Ok (String.eqb k name).
Proof. simpl. by destruct (String.eqb k name). Qed.

Lemma bind_ret {A : Type} (r : outcome A) : r ≫= Ok = r.
Proof. by destruct r. Qed.

(** A loop over distinct names whose body acts for one name only. *)
Lemma for_each_only {S : Type} (f : S → string → outcome S) (g : S → outcome S)
    (name : string) (l : list string) (s : S) :
  NoDup l →
  (∀ s' b, f s' b = if String.eqb name b then g s' else Ok s') →
  for_each f s l = if bool_decide (name ∈ l) then g s else Ok s.
Proof.
  intros Hnodup Hf. revert s. induction Hnodup as [|b l Hb Hnodup IH]; intros s.
  - done.
  - simpl. rewrite Hf. destruct (String.eqb name b) eqn:Hname.
    + apply String.eqb_eq in Hname as ->.
      rewrite bool_decide_eq_true_2 by (apply elem_of_cons; by left).
      rewrite <- (bind_ret (g s)) at 2. destruct (g s) as [s'|]; [|done].
      rewrite !bind_Ok, IH. by rewrite bool_decide_eq_false_2.
    + apply String.eqb_neq in Hname. rewrite bind_Ok, IH.
      destruct (decide (name ∈ l)) as [Hin|Hin].
      * rewrite (bool_decide_eq_true_2 (name ∈ l)) by done.
        by rewrite bool_decide_eq_true_2 by (apply elem_of_cons; by right).
      * rewrite (bool_decide_eq_false_2 (name ∈ l)) by done.
        rewrite bool_decide_eq_false_2; [done|].
        rewrite elem_of_cons. by intros [?|?].
Qed.

Lemma operations_NoDup : NoDup operations.
Proof. compute_done. Qed.

Lemma dtype_NoDup : NoDup dtype.
Proof. compute_done. Qed.

(** The eight names [import] does go through: a description with one of
    them, one data type and a leaf whose profiles [create] accepts puts
    the model under the key of the pair, over whatever was there. *)
Lemma import_listed_operation (op dt : string) (leaf profiles : Value)
    (etype : expression_type) (t : numeric_type) (templates : list base)
    (mdl : model) (queue : CommandQueue)
    (result : gmap (expression_type * numeric_type) model) :
  op ∈ operations → dt ∈ dtype →
  detail.get_expression_type op = Ok etype → detail.get_dtype dt = Ok t →
  member leaf "profiles" = Ok profiles →
  get_profiles op profiles = Ok templates →
  imported_model leaf templates queue = Ok mdl →
  import (JObject [(op, JObject [(dt, leaf)])]) queue result
  = Ok (<[(etype, t) := mdl]> result).
Proof.
  intros Hop Hdt Hetype Ht Hprofiles Htemplates Hmdl.
  unfold import.
  rewrite (for_each_only _
             (λ r, for_each (import_dtype (JObject [(op, JObject [(dt, leaf)])])
                               queue op etype) r dtype) op _ _ operations_NoDup).
  - rewrite bool_decide_eq_true_2 by done.
    rewrite (for_each_only _ (λ r, Ok (<[(etype, t) := mdl]> r)) dt _ _ dtype_NoDup).
    + by rewrite bool_decide_eq_true_2.
    + intros r dt'. unfold import_dtype.
      rewrite member_single, bind_Ok, HasMember_single, bind_Ok.
      destruct (String.eqb dt dt') eqn:Hsame; [|done].
      apply String.eqb_eq in Hsame as <-.
      rewrite Ht, bind_Ok, member_single, bind_Ok, Hprofiles, bind_Ok.
      rewrite Htemplates, bind_Ok. unfold imported_model in Hmdl.
      case_decide.
      * destruct (member leaf "predictor"); [|done]. simpl in *. by injection Hmdl as <-.
      * by injection Hmdl as <-.
  - intros r op'. unfold import_operation. rewrite HasMember_single, bind_Ok.
    destruct (String.eqb op op') eqn:Hsame; [|done].
    apply String.eqb_eq in Hsame as <-. by rewrite Hetype, bind_Ok.
Qed.

(** C2 (where the code departs from it).  "gemmNT" is missing from the list
    [import] goes through: a description whose only operation is "gemmNT"
    leaves the map as it was, whatever stands below the key, although
    [get_expression_type] and [create] both know the name. *)
Theorem import_skips_gemmNT (leaf : Value) (queue : CommandQueue)
    (result : gmap (expression_type * numeric_type) model) :
  import (JObject [("gemmNT", leaf)]) queue result = Ok result ∧
  detail.get_expression_type "gemmNT" = Ok MATRIX_PRODUCT_NT_TYPE ∧
  detail.create "gemmNT" [1; 8; 8; 8; 4; 1; 4; 0; 0; 8; 8]%Z
  = Ok (mproduct_nt 1 8 8 8 4 1 4 FETCH_FROM_LOCAL FETCH_FROM_LOCAL 8 8).
Proof. repeat split. Qed.

End ImporterProperties.

(** ** The theorems at work on the concrete backend *)

Section Runs.
Import Stub.

#[local] Existing Instance collaborators.
#[local] Existing Instance templates.

Lemma stub_cost_order (v : list Z) : @cost_order collaborators v.
Proof.
  repeat split; simpl.
  - intros a _. apply Z.ltb_irrefl.
  - intros a b c _ _ _ Hab Hbc. apply Z.ltb_lt in Hab, Hbc. apply Z.ltb_lt. lia.
  - intros a b c _ _ _ Hab Hbc. apply Z.ltb_ge in Hab, Hbc. apply Z.ltb_ge. lia.
Qed.

(** Override beats predictor: the forest prefers variant 1, the override for
    shape [[64]] says 0, and variant 0 is enqueued. *)
Lemma execute_override_wins_run :
  ∃ compilers m1,
    init two_variants_tuned batch 7%Z device false = Ok (compilers, m1) ∧
    execute two_variants_tuned batch false false
    = Ok (set_queue m1 (submit (queue_ m1) (enqueued v0 compilers 0 batch))).
Proof.
  eexists _, _. split; [vm_compute; reflexivity|].
  apply (execute_override_wins two_variants_tuned _ batch false false _ v0 v0 0);
    [reflexivity | vm_compute; reflexivity | reflexivity | reflexivity | reflexivity].
Defined.

(** Predicted minimum with a tie: the forest answers [[5; 3; 3]] and
    variant 1, the first of the two cheapest, is enqueued. *)
Lemma execute_predicted_minimum_run :
  ∃ compilers m1,
    init three_variants batch 7%Z device false = Ok (compilers, m1) ∧
    min_element (predict [5; 3; 3]%Z [64%Z]) = 1 ∧
    ∃ label tpl,
      templates_ three_variants !! label = Some tpl ∧
      execute three_variants batch false false
      = Ok (set_queue m1 (submit (queue_ m1) (enqueued tpl compilers label batch))) ∧
      label = min_element (predict [5; 3; 3]%Z (input_sizes v0 batch)) ∧
      first_minimum (predict [5; 3; 3]%Z (input_sizes v0 batch)) label.
Proof.
  eexists _, _. split; [vm_compute; reflexivity|]. split; [reflexivity|].
  apply (execute_predicted_minimum three_variants _ batch false _ v0 [5; 3; 3]%Z);
    [reflexivity | vm_compute; reflexivity | reflexivity | reflexivity | reflexivity
    | reflexivity | apply stub_cost_order].
Defined.

(** No predictor, no override, [bypass_predictor] false: variant 0. *)
Lemma execute_default_variant_run :
  ∃ compilers m1,
    init one_variant batch 7%Z device false = Ok (compilers, m1) ∧
    execute one_variant batch false false
    = Ok (set_queue m1 (submit (queue_ m1) (enqueued v0 compilers 0 batch))).
Proof.
  eexists _, _. split; [vm_compute; reflexivity|].
  apply (execute_default_variant one_variant _ batch false false _ v0);
    [reflexivity | vm_compute; reflexivity | reflexivity | reflexivity
    | right; reflexivity].
Defined.

Lemma execute_keeps_hardcoded_run :
  ∃ m', execute two_variants_tuned batch false false = Ok m' ∧
        hardcoded_ m' = hardcoded_ two_variants_tuned.
Proof.
  eexists. split; [vm_compute; reflexivity|].
  apply execute_keeps_hardcoded with (e := batch) (bypass := false) (force := false).
  vm_compute; reflexivity.
Defined.

Lemma tune_records_fastest_run :
  ∃ compilers m1,
    init two_variants batch 7%Z device false = Ok (compilers, m1) ∧
    min_element (measured <$> seq 0 2) = 1 ∧
    ∃ m' label tpl,
      tune two_variants batch measured = Ok m' ∧
      label = min_element (measured <$> seq 0 (length (templates_ two_variants))) ∧
      first_minimum (measured <$> seq 0 (length (templates_ two_variants))) label ∧
      hardcoded_ m' = <[input_sizes v0 batch := label]> (hardcoded_ two_variants) ∧
      templates_ m' !! label = Some tpl ∧
      ∀ bypass force,
        execute m' batch bypass force
        = Ok (set_queue m' (submit (queue_ m') (enqueued tpl compilers label batch))).
Proof.
  eexists _, _. split; [vm_compute; reflexivity|]. split; [reflexivity|].
  eapply (tune_records_fastest two_variants _ batch measured _ v0);
    [reflexivity | vm_compute; reflexivity | reflexivity | apply stub_cost_order].
Defined.

(** A second [init], on another device and asking for recompilation. *)
Lemma init_idempotent_run :
  ∃ set m1,
    init two_variants batch 7%Z device false = Ok (set, m1) ∧
    init m1 batch 7%Z {| device_extensions := "" |} true = Ok (set, m1).
Proof.
  eexists _, _. split; [vm_compute; reflexivity|].
  apply (init_idempotent two_variants _ batch batch 7%Z device _ false true);
    [vm_compute; reflexivity | reflexivity].
Defined.

Lemma init_builds_two_shells_run :
  ∃ buf set m1,
    fill_program_name batch BIND_TO_HANDLE = Ok buf ∧
    init three_variants batch 7%Z device false = Ok (set, m1) ∧
    length set = 2 ∧
    lc_name <$> set = [c_string buf; (c_string buf ++ "_fb")%string].
Proof.
  eexists _, _, _. split; [vm_compute; reflexivity|].
  split; [vm_compute; reflexivity|].
  eapply (init_builds_two_shells three_variants _ batch 7%Z device false);
    [vm_compute; reflexivity | reflexivity | vm_compute; reflexivity].
Defined.

(** C8 as stated fails: three templates, two shells. *)
Lemma three_variants_two_shells :
  ∃ set m1,
    init three_variants batch 7%Z device false = Ok (set, m1) ∧
    length (templates_ three_variants) = 3 ∧ length set = 2 ∧
    length set ≠ length (templates_ three_variants) ∧
    length set ≠ S (length (templates_ three_variants)).
Proof.
  eexists _, _. split; [vm_compute; reflexivity|]. repeat split; simpl; lia.
Qed.

(** C9 as stated fails: a traversal of 300 characters runs over the end of
    [program_name]; no assertion stops it. *)
Lemma long_batch_overflows :
  length (representation (new_binder BIND_TO_HANDLE) (data long_batch)) = 300 ∧
  fill_program_name long_batch BIND_TO_HANDLE = Fail undefined_behaviour ∧
  fill_program_name long_batch BIND_TO_HANDLE ≠ Fail assertion_failure ∧
  no_invalid_argument (fill_program_name long_batch BIND_TO_HANDLE).
Proof.
  assert (fill_program_name long_batch BIND_TO_HANDLE = Fail undefined_behaviour) as H
    by (vm_compute; reflexivity).
  split; [vm_compute; reflexivity|]. split; [exact H|]. rewrite H. split; [done|].
  by intros what.
Qed.

(** C3 as stated fails: an operation name and a data-type name nobody
    knows, and [import] returns normally with the map untouched. *)
Lemma unknown_names_accepted :
  import (JObject [("axpby", JObject [("float32", JObject [("profiles", JArray [])])])])
         queue ∅ = Ok ∅ ∧
  import (JObject [("vaxpy", JObject [("int32", JObject [("profiles", JArray [])])])])
         queue ∅ = Ok ∅.
Proof. split; reflexivity. Qed.

Lemma import_ignores_unknown_names_run :
  import (JObject ([] ++ ("axpby", JNull) :: [])) queue ∅
  = import (JObject ([] ++ [])) queue ∅ ∧
  import (JObject ([] ++ ("vaxpy", JObject ([] ++ ("int32", JNull) :: [])) :: []))
         queue ∅
  = import (JObject ([] ++ ("vaxpy", JObject ([] ++ [])) :: [])) queue ∅ ∧
  no_invalid_argument (import (JObject ([] ++ ("axpby", JNull) :: [])) queue ∅) ∧
  no_invalid_argument
    (import (JObject ([] ++ ("vaxpy", JObject ([] ++ ("int32", JNull) :: [])) :: []))
            queue ∅).
Proof.
  apply (import_ignores_unknown_names [] [] [] [] "axpby" "vaxpy" "int32" JNull JNull
           queue ∅); reflexivity.
Defined.

End Runs.

(** * Further properties *)

Section CacheProperties.
Context {C : Collaborators} {T : Templates}.

(** ** What [init] puts into the shells *)

Lemma add_sources_lookup (cur : list string) (to_init to_init' : list lazy_compiler)
    (j0 j : nat) (c : lazy_compiler) :
  add_sources to_init j0 cur = Ok to_init' → to_init !! j = Some c →
  to_init' !! j
  = Some (match (if decide (j0 ≤ j) then cur !! (j - j0) else None) with
          | Some src => add c src
          | None => c
          end).
Proof.
  revert to_init j0 c. induction cur as [|src cur IH]; intros to_init j0 c H Hc; simpl in H.
  - injection H as <-. rewrite Hc. by case_decide.
  - bind_inv H. apply at_index_Ok_inv in E.
    destruct (decide (j = j0)) as [->|Hne].
    + assert (a = c) as -> by congruence.
      rewrite (IH _ _ (add c src) H) by (apply list_lookup_insert_eq; by eapply lookup_lt_Some).
      rewrite decide_False by lia. rewrite decide_True by lia.
      by rewrite Nat.sub_diag.
    + rewrite (IH _ _ c H) by (by rewrite list_lookup_insert_ne).
      destruct (decide (S j0 ≤ j)) as [Hle|Hgt].
      * rewrite decide_True by lia.
        replace (j - j0) with (S (j - S j0)) by lia. done.
      * by rewrite decide_False by lia.
Qed.

Lemma generate_all_lookup (templates : list base) (to_init to_init' : list lazy_compiler)
    (i j : nat) (e : symbolic_expressions_container) (device : Device)
    (c : lazy_compiler) :
  generate_all to_init i templates e device = Ok to_init' → to_init !! j = Some c →
  to_init' !! j
  = Some {| lc_context := lc_context c; lc_name := lc_name c;
            lc_force_recompilation := lc_force_recompilation c;
            lc_sources := lc_sources c ++ slot_sources j i templates e device |}.
Proof.
  revert to_init i c. induction templates as [|tpl templates IH];
    intros to_init i c H Hc; simpl in H.
  - injection H as <-. rewrite Hc. simpl. rewrite app_nil_r. by destruct c.
  - bind_inv H. pose proof (add_sources_lookup _ _ _ 0 j c E Hc) as Hstep.
    rewrite decide_True, Nat.sub_0_r in Hstep by lia.
    rewrite (IH _ _ _ H Hstep). simpl.
    destruct (generate tpl i e device !! j); simpl; [|done].
    by rewrite <- app_assoc.
Qed.

(** X1.  On a miss, [init] returns the primary and the fallback shell of
    this context, both with the recompilation flag of this call; shell [j]
    holds the extension preamble and then the [j]-th source of every
    template that generated one, in the order of the templates. *)
Theorem init_miss_shells (m m1 : model) (e : symbolic_expressions_container) (ctx : Z)
    (device : Device) (force : bool) (buf : list ascii) (set : list lazy_compiler) :
  fill_program_name e BIND_TO_HANDLE = Ok buf →
  cache_entry m ctx (c_string buf) = [] →
  init m e ctx device force = Ok (set, m1) →
  set = [ {| lc_context := ctx; lc_name := c_string buf;
             lc_force_recompilation := force;
             lc_sources := define_extension (device_extensions device) "cl_khr_fp64"
                           :: slot_sources 0 0 (templates_ m) e device |};
          {| lc_context := ctx; lc_name := (c_string buf ++ "_fb")%string;
             lc_force_recompilation := force;
             lc_sources := define_extension (device_extensions device) "cl_khr_fp64"
                           :: slot_sources 1 0 (templates_ m) e device |} ].
Proof.
  intros Hbuf Hmiss H.
  apply init_cases in H as (buf' & Hbuf' & [(Hentry & Hne & _)|(_ & _ & Hgen)]);
    [congruence|].
  assert (buf' = buf) as -> by congruence.
  pose proof (generate_all_length _ _ _ _ _ _ Hgen) as Hlen.
  pose proof (generate_all_lookup _ _ _ _ 0 _ _ _ Hgen eq_refl) as H0.
  pose proof (generate_all_lookup _ _ _ _ 1 _ _ _ Hgen eq_refl) as H1.
  destruct set as [|c0 [|c1 [|c2 set]]]; try discriminate Hlen.
  simpl in H0, H1. by injection H0 as ->; injection H1 as ->.
Qed.

Lemma cache_entry_store_ne (m : model) (ctx ctx' : Z) (pname pname' : string)
    (v : list lazy_compiler) :
  (ctx', pname') ≠ (ctx, pname) →
  cache_entry (cache_store m ctx pname v) ctx' pname' = cache_entry m ctx' pname'.
Proof.
  intros Hne. unfold cache_entry, cache_store. simpl.
  destruct (decide (ctx' = ctx)) as [->|Hctx].
  - rewrite lookup_insert_eq. simpl. rewrite lookup_insert_ne; [done | congruence].
  - by rewrite lookup_insert_ne.
Qed.

(** X2.  [init] changes nothing of the object but the cache entry of its
    own context and fingerprint: templates, predictor, overrides and queue
    stay, and so does the entry under any other context or name. *)
Theorem init_touches_one_entry (m m1 : model) (e : symbolic_expressions_container)
    (ctx : Z) (device : Device) (force : bool) (buf : list ascii)
    (set : list lazy_compiler) :
  fill_program_name e BIND_TO_HANDLE = Ok buf →
  init m e ctx device force = Ok (set, m1) →
  templates_ m1 = templates_ m ∧ predictor_ m1 = predictor_ m ∧
  hardcoded_ m1 = hardcoded_ m ∧ queue_ m1 = queue_ m ∧
  cache_entry m1 ctx (c_string buf) = set ∧
  ∀ ctx' pname', (ctx', pname') ≠ (ctx, c_string buf) →
                 cache_entry m1 ctx' pname' = cache_entry m ctx' pname'.
Proof.
  intros Hbuf H. destruct (init_frame _ _ _ _ _ _ _ H) as (Ht & Hp & Hh & Hq).
  repeat (split; [done|]).
  apply init_cases in H as (buf' & Hbuf' & Hcases).
  assert (buf' = buf) as -> by congruence.
  destruct Hcases as [(Hentry & _ & ->)|(_ & -> & _)].
  - done.
  - split; [apply cache_entry_store|]. intros ctx' pname' Hne.
    by apply cache_entry_store_ne.
Qed.

(** ** When [init] returns *)

Lemma add_sources_overflows (cur : list string) (to_init : list lazy_compiler) (j : nat) :
  j ≤ length to_init → length to_init < j + length cur →
  add_sources to_init j cur = Fail undefined_behaviour.
Proof.
  revert to_init j. induction cur as [|src cur IH]; intros to_init j Hj Hlen; simpl in *.
  - lia.
  - destruct (to_init !! j) as [c|] eqn:Hc.
    + rewrite (at_index_Ok _ _ _ Hc), bind_Ok. apply lookup_lt_Some in Hc.
      apply IH; rewrite length_insert; lia.
    + unfold at_index. by rewrite Hc.
Qed.

Lemma generate_all_overflows (templates : list base) (to_init : list lazy_compiler)
    (i k : nat) (tpl : base) (e : symbolic_expressions_container) (device : Device) :
  templates !! k = Some tpl →
  length to_init < length (generate tpl (i + k) e device) →
  generate_all to_init i templates e device = Fail undefined_behaviour.
Proof.
  revert to_init i k. induction templates as [|tpl' templates IH];
    intros to_init i k Hk Hlen; [done|]. simpl.
  destruct (decide (length (generate tpl' i e device) ≤ length to_init)) as [Hfit|Hover].
  - destruct (add_sources_runs (generate tpl' i e device) to_init 0) as [to_init1 Hadd];
      [simpl; lia|].
    rewrite Hadd, bind_Ok. destruct k as [|k]; simpl in Hk.
    + injection Hk as ->. rewrite Nat.add_0_r in Hlen. lia.
    + apply (IH _ _ k); [done|].
      rewrite (add_sources_length _ _ _ _ Hadd). by rewrite Nat.add_succ_r in Hlen.
  - rewrite add_sources_overflows; [done | lia | simpl; lia].
Qed.

(** X3.  On a miss with a fingerprint that fits, [init] returns when no
    template generates more than two sources; when one does, the third
    source is added to a shell that is not there, [to_init[2]]. *)
Theorem init_miss_returns_or_overruns (m : model) (e : symbolic_expressions_container)
    (ctx : Z) (device : Device) (force : bool) (buf : list ascii) :
  fill_program_name e BIND_TO_HANDLE = Ok buf →
  cache_entry m ctx (c_string buf) = [] →
  ((∀ k tpl, templates_ m !! k = Some tpl → length (generate tpl k e device) ≤ 2) →
   ∃ set m1, init m e ctx device force = Ok (set, m1)) ∧
  ((∃ k tpl, templates_ m !! k = Some tpl ∧ 2 < length (generate tpl k e device)) →
   init m e ctx device force = Fail undefined_behaviour).
Proof.
  intros Hbuf Hmiss. split.
  - intros Hgen. by eapply init_runs.
  - intros (k & tpl & Hk & Hlen). unfold init. rewrite Hbuf, bind_Ok, Hmiss. simpl.
    by rewrite (generate_all_overflows _ _ 0 k tpl).
Qed.

(** ** The cache stays well formed *)

Lemma init_cache_wf (m m1 : model) (e : symbolic_expressions_container) (ctx : Z)
    (device : Device) (force : bool) (set : list lazy_compiler) :
  cache_wf m → init m e ctx device force = Ok (set, m1) →
  cache_wf m1 ∧ length set = 2.
Proof.
  intros Hwf H.
  apply init_cases in H as (buf & Hbuf & [(Hentry & Hne & ->)|(Hmiss & -> & Hgen)]).
  - split; [done|]. destruct (Hwf ctx (c_string buf)) as [Hnil|(c & c' & Hset & _)];
      [congruence|]. by rewrite <- Hentry, Hset.
  - pose proof (generate_all_length _ _ _ _ _ _ Hgen) as Hlen.
    pose proof (generate_all_names _ _ _ _ _ _ Hgen) as Hnames.
    split; [|done]. intros ctx' pname'.
    destruct (decide ((ctx', pname') = (ctx, c_string buf))) as [[= -> ->]|Hne].
    + right. rewrite cache_entry_store.
      destruct set as [|c0 [|c1 [|c2 set]]]; try discriminate Hlen.
      injection Hnames as H0 H1. by exists c0, c1.
    + rewrite cache_entry_store_ne by done. apply Hwf.
Qed.

End CacheProperties.

Section RunProperties.
Context {C : Collaborators} {T : Templates}.

(** ** [execute] and [tune] taken apart *)

Lemma check_context_Ok (m : model) (e : symbolic_expressions_container) :
  check_context m e = Ok () ↔ context e = queue_context (queue_ m).
Proof. unfold check_context. by case_decide. Qed.

Lemma execute_inv (m m' : model) (e : symbolic_expressions_container)
    (bypass force : bool) :
  execute m e bypass force = Ok m' →
  ∃ compilers m1 tpl0 label tpl,
    check_context m e = Ok () ∧
    init m e (context e) (queue_device (queue_ m)) force = Ok (compilers, m1) ∧
    templates_ m !! 0 = Some tpl0 ∧
    choose_label m (bypass || no_predictor m) (input_sizes tpl0 e) = Ok label ∧
    templates_ m !! label = Some tpl ∧
    m' = set_queue m1 (submit (queue_ m1) (enqueued tpl compilers label e)).
Proof.
  unfold execute. intros H.
  bind_inv H. destruct a. bind_inv H. destruct a as [compilers m1].
  destruct (init_frame _ _ _ _ _ _ _ E0) as (Ht & Hp & Hh & Hq).
  bind_inv H. bind_inv H. unfold enqueue in H. bind_inv H. injection H as <-.
  apply at_index_Ok_inv in E1, E3. rewrite Ht in E1, E3.
  rewrite (choose_label_frame m m1) in E2 by done.
  exists compilers, m1, a, a0, a1. done.
Qed.

Lemma tune_inv (m m' : model) (e : symbolic_expressions_container)
    (timer_get : nat → float) :
  tune m e timer_get = Ok m' →
  ∃ compilers m1 m2 tpl0,
    check_context m e = Ok () ∧
    init m e (context e) (queue_device (queue_ m)) false = Ok (compilers, m1) ∧
    templates_ m !! 0 = Some tpl0 ∧
    collect_timings m1 compilers e timer_get
      (replicate (length (templates_ m1)) float_zero) 0 (length (templates_ m1))
    = Ok (timer_get <$> seq 0 (length (templates_ m)), m2) ∧
    templates_ m2 = templates_ m ∧ predictor_ m2 = predictor_ m ∧
    hardcoded_ m2 = hardcoded_ m ∧ lazy_programs_ m2 = lazy_programs_ m1 ∧
    queue_context (queue_ m2) = queue_context (queue_ m) ∧
    queue_device (queue_ m2) = queue_device (queue_ m) ∧
    m' = set_hardcoded m2
           (<[input_sizes tpl0 e := min_element (timer_get <$> seq 0 (length (templates_ m)))]>
              (hardcoded_ m2)).
Proof.
  unfold tune. intros H.
  bind_inv H. destruct a. bind_inv H. destruct a as [compilers m1].
  destruct (init_frame _ _ _ _ _ _ _ E0) as (Ht & Hp & Hh & Hq).
  destruct (collect_timings_runs (length (templates_ m1)) m1 compilers e timer_get
              (replicate (length (templates_ m1)) float_zero) 0)
    as (m2 & Hrun & Ht2 & Hp2 & Hh2 & Hl2 & Hqc & Hqd);
    [done | by rewrite length_replicate |].
  rewrite take_0 in Hrun. simpl in Hrun. rewrite Hrun, bind_Ok in H.
  bind_inv H. injection H as <-. apply at_index_Ok_inv in E1.
  rewrite Ht2, Ht in E1. rewrite Ht.
  exists compilers, m1, m2, a. rewrite Ht in Hrun.
  repeat (split; [congruence|]). done.
Qed.

(** ** The failures of [execute] and [tune] *)

Lemma only_undefined_bind {A B : Type} (r : outcome A) (k : A → outcome B) :
  only_undefined r → (∀ a, only_undefined (k a)) → only_undefined (r ≫= k).
Proof.
  intros Hr Hk f H. apply bind_Fail_inv in H as [H | (a & _ & H)]; [by apply Hr|].
  by eapply Hk.
Qed.

Lemma only_undefined_Ok {A : Type} (a : A) : only_undefined (Ok a).
Proof. by intros f. Qed.

Lemma only_undefined_at_index {A : Type} (v : list A) (i : nat) :
  only_undefined (at_index v i).
Proof. unfold at_index. destruct (v !! i); intros f; [done | congruence]. Qed.

Lemma only_undefined_for_each {A S : Type} (body : S → A → outcome S) (l : list A)
    (s : S) :
  (∀ s' a, only_undefined (body s' a)) → only_undefined (for_each body s l).
Proof.
  intros Hbody. revert s. induction l as [|a l IH]; intros s; simpl.
  - apply only_undefined_Ok.
  - apply only_undefined_bind; [apply Hbody | intros s'; apply IH].
Qed.

Lemma only_undefined_store (buf : list ascii) (c : ascii) : only_undefined (store buf c).
Proof. unfold store. case_decide; intros f; [done | congruence]. Qed.

Lemma only_undefined_fill_program_name (e : symbolic_expressions_container)
    (binding_policy : binding_policy_t) :
  only_undefined (fill_program_name e binding_policy).
Proof.
  unfold fill_program_name.
  apply only_undefined_bind; [apply only_undefined_store|]. intros buf.
  apply only_undefined_bind.
  - apply only_undefined_for_each. intros [buf' binder] x. unfold traverse_into.
    destruct (traverse x binder) as [cs binder'].
    apply only_undefined_bind; [|intros ?; apply only_undefined_Ok].
    apply only_undefined_for_each. intros ? ?. apply only_undefined_store.
  - intros [buf' binder]. apply only_undefined_store.
Qed.

Lemma only_undefined_add_sources (cur : list string) (to_init : list lazy_compiler)
    (j : nat) :
  only_undefined (add_sources to_init j cur).
Proof.
  revert to_init j. induction cur as [|src cur IH]; intros to_init j; simpl.
  - apply only_undefined_Ok.
  - apply only_undefined_bind; [apply only_undefined_at_index | intros c; apply IH].
Qed.

Lemma only_undefined_generate_all (templates : list base) (to_init : list lazy_compiler)
    (i : nat) (e : symbolic_expressions_container) (device : Device) :
  only_undefined (generate_all to_init i templates e device).
Proof.
  revert to_init i. induction templates as [|tpl templates IH]; intros to_init i; simpl.
  - apply only_undefined_Ok.
  - apply only_undefined_bind; [apply only_undefined_add_sources | intros c; apply IH].
Qed.

Lemma only_undefined_init (m : model) (e : symbolic_expressions_container) (ctx : Z)
    (device : Device) (force : bool) :
  only_undefined (init m e ctx device force).
Proof.
  unfold init. apply only_undefined_bind; [apply only_undefined_fill_program_name|].
  intros buf. destruct (cache_entry m ctx (c_string buf)); [|apply only_undefined_Ok].
  apply only_undefined_bind; [apply only_undefined_generate_all|].
  intros set. apply only_undefined_Ok.
Qed.

Lemma only_undefined_enqueue (m : model) (compilers : list lazy_compiler) (label : nat)
    (e : symbolic_expressions_container) :
  only_undefined (enqueue m compilers label e).
Proof.
  unfold enqueue. apply only_undefined_bind; [apply only_undefined_at_index|].
  intros tpl. apply only_undefined_Ok.
Qed.

Lemma only_undefined_collect_timings (count : nat) (m : model)
    (compilers : list lazy_compiler) (e : symbolic_expressions_container)
    (timer_get : nat → float) (timings : list float) (i : nat) :
  only_undefined (collect_timings m compilers e timer_get timings i count).
Proof.
  revert m timings i. induction count as [|count IH]; intros m timings i; simpl.
  - apply only_undefined_Ok.
  - apply only_undefined_bind; [apply only_undefined_enqueue|]. intros m'.
    apply only_undefined_bind; [apply only_undefined_at_index|]. intros old. apply IH.
Qed.

(** X4.  The code of [execute] and of [tune] has one check, the assertion
    on the context, and it comes first: where [assert] is compiled in, both
    stop there on a batch of another context.  On a batch of the queue's
    context, and as long as the templates, the predictor and the queue
    return normally (they are total here; what they throw would pass
    through), whatever goes wrong in the code of [execute], [tune] and
    [init] itself is an unchecked access: a subscript out of range or the
    overrun of [program_name]. *)
Theorem execute_tune_failures (m : model) (e : symbolic_expressions_container)
    (bypass force : bool) (timer_get : nat → float) :
  (context e ≠ queue_context (queue_ m) →
   execute m e bypass force = Fail assertion_failure ∧
   tune m e timer_get = Fail assertion_failure) ∧
  (context e = queue_context (queue_ m) →
   only_undefined (execute m e bypass force) ∧ only_undefined (tune m e timer_get)).
Proof.
  split.
  - intros Hne. unfold execute, tune, check_context. by rewrite decide_False.
  - intros Heq. unfold execute, tune, check_context. rewrite decide_True by done.
    rewrite !bind_Ok. split.
    + apply only_undefined_bind; [apply only_undefined_init|]. intros [compilers m1].
      apply only_undefined_bind; [apply only_undefined_at_index|]. intros tpl0.
      apply only_undefined_bind; [|intros label; apply only_undefined_enqueue].
      unfold choose_label. destruct (hardcoded_ m1 !! _); [apply only_undefined_Ok|].
      destruct (bypass || _); [apply only_undefined_Ok|].
      destruct (predictor_ m1); [apply only_undefined_Ok | by intros f [= <-]].
    + apply only_undefined_bind; [apply only_undefined_init|]. intros [compilers m1].
      apply only_undefined_bind; [apply only_undefined_collect_timings|].
      intros [timings m2].
      apply only_undefined_bind; [apply only_undefined_at_index|]. intros tpl0.
      apply only_undefined_Ok.
Qed.

(** X5.  A returning [execute] has submitted exactly one command, the
    enqueue of a template of the model with its own index and with the set
    the cache holds for the batch; it has not waited on the queue, and it
    has left templates, predictor and the queue's context and device as
    they were. *)
Theorem execute_submits_one_command (m m' : model) (e : symbolic_expressions_container)
    (bypass force : bool) :
  execute m e bypass force = Ok m' →
  templates_ m' = templates_ m ∧ predictor_ m' = predictor_ m ∧
  queue_context (queue_ m') = queue_context (queue_ m) ∧
  queue_device (queue_ m') = queue_device (queue_ m) ∧
  ∃ buf tpl label,
    fill_program_name e BIND_TO_HANDLE = Ok buf ∧
    templates_ m !! label = Some tpl ∧
    queue_commands (queue_ m')
    = queue_commands (queue_ m)
      ++ [enqueued tpl (cache_entry m' (context e) (c_string buf)) label e].
Proof.
  intros H.
  apply execute_inv in H as (compilers & m1 & tpl0 & label & tpl & Hctx & Hinit & H0 &
                             Hlabel & Htpl & ->).
  destruct (init_frame _ _ _ _ _ _ _ Hinit) as (Ht & Hp & Hh & Hq).
  apply init_entry in Hinit as (buf & Hbuf & Hentry & _). simpl.
  rewrite Hq. repeat (split; [done|]).
  exists buf, tpl, label. repeat (split; [done|]).
  unfold cache_entry in *. simpl. by rewrite Hentry.
Qed.

(** X6.  [execute] can be repeated: after a returning [execute], the same
    call on the resulting object returns too, for any recompilation flag;
    it submits the very same command again and leaves the cache as the
    first call left it. *)
Theorem execute_repeatable (m m1 : model) (e : symbolic_expressions_container)
    (bypass force force' : bool) :
  execute m e bypass force = Ok m1 →
  ∃ m2 cmd,
    execute m1 e bypass force' = Ok m2 ∧
    lazy_programs_ m2 = lazy_programs_ m1 ∧ hardcoded_ m2 = hardcoded_ m1 ∧
    queue_commands (queue_ m1) = queue_commands (queue_ m) ++ [cmd] ∧
    queue_commands (queue_ m2) = queue_commands (queue_ m1) ++ [cmd].
Proof.
  intros H.
  apply execute_inv in H as (compilers & mi & tpl0 & label & tpl & Hctx & Hinit & H0 &
                             Hlabel & Htpl & ->).
  destruct (init_frame _ _ _ _ _ _ _ Hinit) as (Ht & Hp & Hh & Hq).
  apply init_entry in Hinit as (buf & Hbuf & Hentry & Hne).
  set (m1 := set_queue mi (submit (queue_ mi) (enqueued tpl compilers label e))).
  exists (set_queue m1 (submit (queue_ m1) (enqueued tpl compilers label e))),
         (enqueued tpl compilers label e).
  split; [|by rewrite <- Hq].
  apply execute_selects with (tpl0 := tpl0).
  - apply check_context_Ok. simpl. rewrite Hq. by apply check_context_Ok.
  - eapply init_hit; [exact Hbuf | exact Hentry | exact Hne].
  - simpl. by rewrite Ht.
  - rewrite <- Hlabel. unfold choose_label, no_predictor. simpl. by rewrite Hh, Hp.
  - simpl. by rewrite Ht.
Qed.

End RunProperties.

Section TuneProperties.
Context {C : Collaborators} {T : Templates}.

(** ** What [tune] submits *)

Lemma collect_timings_commands (count : nat) (m m' : model)
    (compilers : list lazy_compiler) (e : symbolic_expressions_container)
    (timer_get : nat → float) (timings timings' : list float) (i : nat) :
  collect_timings m compilers e timer_get timings i count = Ok (timings', m') →
  queue_commands (queue_ m')
  = queue_commands (queue_ m)
    ++ tuning_commands compilers e i (take count (drop i (templates_ m))).
Proof.
  revert m timings i. induction count as [|count IH]; intros m timings i H; simpl in H.
  - injection H as _ <-. by rewrite take_0, app_nil_r.
  - unfold enqueue in H. bind_inv H. bind_inv E. injection E as <-.
    bind_inv H. apply IH in H. simpl in H. rewrite H.
    apply at_index_Ok_inv in E0. rewrite (drop_S _ _ _ E0). simpl.
    by rewrite <- !app_assoc.
Qed.

(** X7.  A returning [tune] has run every template once, in the order of
    the model, each enqueue followed by a wait on the queue, all with the
    one set of the batch; apart from the queue it has changed the cache as
    [init] does and the override of the batch's shape, nothing else:
    templates, predictor and every other override are as before. *)
Theorem tune_runs_every_template (m m' : model) (e : symbolic_expressions_container)
    (timer_get : nat → float) :
  tune m e timer_get = Ok m' →
  ∃ compilers m1 tpl0,
    init m e (context e) (queue_device (queue_ m)) false = Ok (compilers, m1) ∧
    templates_ m !! 0 = Some tpl0 ∧
    queue_commands (queue_ m')
    = queue_commands (queue_ m) ++ tuning_commands compilers e 0 (templates_ m) ∧
    templates_ m' = templates_ m ∧ predictor_ m' = predictor_ m ∧
    lazy_programs_ m' = lazy_programs_ m1 ∧
    ∀ x, x ≠ input_sizes tpl0 e → hardcoded_ m' !! x = hardcoded_ m !! x.
Proof.
  intros H.
  apply tune_inv in H as (compilers & m1 & m2 & tpl0 & Hctx & Hinit & H0 & Hrun &
                          Ht2 & Hp2 & Hh2 & Hl2 & _ & _ & ->).
  destruct (init_frame _ _ _ _ _ _ _ Hinit) as (Ht & Hp & Hh & Hq).
  exists compilers, m1, tpl0. repeat (split; [done|]). simpl.
  split; [|split; [done|split; [done|split; [done|]]]].
  - apply collect_timings_commands in Hrun. rewrite Hrun, Hq, Ht.
    by rewrite drop_0, firstn_all.
  - intros x Hx. by rewrite lookup_insert_ne, Hh2.
Qed.

(** ** Invariants *)

Lemma min_element_from_lt (rest : list float) (s : nat) (sv : float) (i : nat) :
  s < i → min_element_from s sv i rest < i + length rest.
Proof.
  revert s sv i. induction rest as [|x rest IH]; intros s sv i Hs; simpl; [lia|].
  destruct (float_lt x sv).
  - specialize (IH i x (S i)). lia.
  - specialize (IH s sv (S i)). lia.
Qed.

Lemma min_element_lt (v : list float) : v ≠ [] → min_element v < length v.
Proof.
  destruct v as [|x rest]; [done|]. intros _. simpl.
  pose proof (min_element_from_lt rest 0 x 1). lia.
Qed.

(** X8.  The overrides stay inside the templates: if every recorded label
    indexes a template, the same holds after [execute] and after [tune],
    whatever the timer returns (no assumption on how durations compare);
    a freshly constructed model has no override at all. *)
Theorem overrides_stay_in_range (m : model) (e : symbolic_expressions_container) :
  override_wf m →
  (∀ bypass force m', execute m e bypass force = Ok m' → override_wf m') ∧
  (∀ timer_get m', tune m e timer_get = Ok m' → override_wf m').
Proof.
  intros Hwf. split.
  - intros bypass force m' H.
    apply execute_inv in H as (compilers & m1 & tpl0 & label & tpl & _ & Hinit & _ &
                               _ & _ & ->).
    destruct (init_frame _ _ _ _ _ _ _ Hinit) as (Ht & Hp & Hh & Hq).
    intros x l. simpl. rewrite Hh, Ht. apply Hwf.
  - intros timer_get m' H.
    apply tune_inv in H as (compilers & m1 & m2 & tpl0 & _ & _ & H0 & _ &
                            Ht2 & _ & Hh2 & _ & _ & _ & ->).
    intros x l. simpl. rewrite Ht2, Hh2.
    destruct (decide (x = input_sizes tpl0 e)) as [->|Hne].
    + rewrite lookup_insert_eq. intros [= <-].
      set (timings := timer_get <$> seq 0 (length (templates_ m))).
      assert (length timings = length (templates_ m)) as <-
        by (unfold timings; by rewrite length_fmap, length_seq).
      apply min_element_lt. apply lookup_lt_Some in H0. unfold timings.
      destruct (length (templates_ m)); [lia | done].
    + rewrite lookup_insert_ne by done. apply Hwf.
Qed.

(** X9.  The cache stays well formed: if every entry is empty or is the
    pair of a primary and a fallback shell named after its key, the same
    holds after [init], [execute] and [tune], and the set [init] returns,
    built or found, has two shells. *)
Theorem cache_stays_well_formed (m : model) (e : symbolic_expressions_container) :
  cache_wf m →
  (∀ ctx device force set m1,
     init m e ctx device force = Ok (set, m1) → cache_wf m1 ∧ length set = 2) ∧
  (∀ bypass force m', execute m e bypass force = Ok m' → cache_wf m') ∧
  (∀ timer_get m', tune m e timer_get = Ok m' → cache_wf m').
Proof.
  intros Hwf. split; [|split].
  - intros ctx device force set m1 H. by eapply init_cache_wf.
  - intros bypass force m' H.
    apply execute_inv in H as (compilers & m1 & tpl0 & label & tpl & _ & Hinit & _ &
                               _ & _ & ->).
    by apply (init_cache_wf m m1) in Hinit as [Hwf1 _].
  - intros timer_get m' H.
    apply tune_inv in H as (compilers & m1 & m2 & tpl0 & _ & Hinit & _ & _ &
                            _ & _ & _ & Hl2 & _ & _ & ->).
    apply (init_cache_wf m m1) in Hinit as [Hwf1 _]; [|done].
    intros ctx pname. specialize (Hwf1 ctx pname).
    unfold cache_entry in *. simpl. by rewrite Hl2.
Qed.

End TuneProperties.

(** ** Strings: [std::string::find] *)

Lemma prefix_occurs (sub s : string) :
  String.prefix sub s = true ↔ ∃ after, s = (sub ++ after)%string.
Proof.
  revert s. induction sub as [|a sub IH]; intros s.
  - split; [intros _; by exists s | by destruct s].
  - destruct s as [|b s]; simpl; [split; [done | by intros [after [=]]]|].
    destruct (ascii_dec a b) as [->|Hne].
    + rewrite IH. split; intros [after H]; exists after; [by rewrite H | by injection H].
    + split; [done | intros [after [= ? _]]; done].
Qed.

Lemma index_cons (sub : string) (b : ascii) (s : string) :
  String.index 0 sub (String b s)
  = if String.prefix sub (String b s) then Some 0
    else match String.index 0 sub s with Some n => Some (S n) | None => None end.
Proof. done. Qed.

Lemma index_occurs (sub s : string) :
  is_Some (String.index 0 sub s) ↔ occurs_in sub s.
Proof.
  induction s as [|b s IH]; [simpl | rewrite index_cons].
  - destruct sub as [|a sub].
    + split; [intros _; by exists EmptyString, EmptyString | intros _; by eexists].
    + split; [by intros [? [=]]|]. intros (before & after & H).
      destruct before; discriminate H.
  - destruct (String.prefix sub (String b s)) eqn:Hprefix.
    + split; [|intros _; by eexists]. intros _. apply prefix_occurs in Hprefix as [after ->].
      by exists EmptyString, after.
    + split.
      * destruct (String.index 0 sub s) as [n|] eqn:Hindex; [|by intros [? [=]]].
        intros _. destruct IH as [IH _]. destruct IH as (before & after & ->); [by eexists|].
        by exists (String b before), after.
      * intros (before & after & H). destruct before as [|b' before]; simpl in H.
        -- assert (String.prefix sub (String b s) = true) as Hp
             by (apply prefix_occurs; by exists after).
           congruence.
        -- injection H as -> ->. destruct IH as [_ IH].
           destruct IH as [n ->]; [by exists before, after | by eexists].
Qed.

Lemma contains_occurs (s sub : string) : contains s sub = true ↔ occurs_in sub s.
Proof.
  rewrite <- index_occurs. unfold contains.
  destruct (String.index 0 sub s) as [n|].
  - split; [intros _; by eexists | done].
  - split; [done | by intros [? [=]]].
Qed.

(** X10.  [define_extension] gives the pragma line for [ext] exactly when
    [ext] occurs somewhere in the extensions string (as [find] has it: also
    inside a longer name), and the empty string otherwise. *)
Theorem define_extension_occurs (extensions ext : string) :
  (occurs_in ext extensions →
   define_extension extensions ext
   = ("#pragma OPENCL EXTENSION " ++ ext ++ " : enable" ++ String "010" EmptyString)%string) ∧
  (¬ occurs_in ext extensions → define_extension extensions ext = EmptyString).
Proof.
  unfold define_extension. destruct (contains extensions ext) eqn:Hc.
  - split; [done|]. intros Hno. by apply contains_occurs in Hc.
  - split; [|done]. intros Hyes. apply contains_occurs in Hyes. congruence.
Qed.

Section FingerprintProperties.
Context {C : Collaborators}.

(** ** The program name *)

Lemma fill_program_name_Ok (e : symbolic_expressions_container)
    (binding_policy : binding_policy_t) (buf : list ascii) :
  fill_program_name e binding_policy = Ok buf →
  buf = prefix_char e :: representation (new_binder binding_policy) (data e) ++ [zero] ∧
  length buf ≤ program_name_size.
Proof.
  unfold fill_program_name.
  rewrite store_fits by (unfold program_name_size; simpl; lia).
  simpl. fold (prefix_char e).
  set (r := representation (new_binder binding_policy) (data e)).
  destruct (decide (length r + 1 ≤ program_name_size)) as [Hfit|Hover].
  - destruct (traverse_all_fits (data e) [prefix_char e] (new_binder binding_policy))
      as [binder' ->]; [simpl; fold r; lia|].
    simpl. fold r. unfold store. case_decide as Hlast; [|done].
    intros [= <-]. split; [done|]. simpl in *. rewrite length_app. simpl. lia.
  - rewrite traverse_all_overflows; [done | simpl; unfold program_name_size; lia |].
    simpl. fold r. lia.
Qed.

Lemma c_string_terminated (cs : list ascii) (rest : list ascii) :
  zero ∉ cs → c_string (cs ++ zero :: rest) = string_of_list_ascii cs.
Proof.
  induction cs as [|c cs IH]; intros Hno; simpl.
  - done.
  - destruct (Ascii.eqb c zero) eqn:Hc.
    + apply Ascii.eqb_eq in Hc as ->. exfalso. apply Hno. by left.
    + rewrite IH; [done|]. intros Hin. apply Hno. by right.
Qed.

(** X11.  When the representation of the batch holds no NUL, the name
    [init] files the set under is the whole fingerprint: the prefix
    character followed by every character of the traversal, at most 255
    characters in all. *)
Theorem program_name_is_whole (e : symbolic_expressions_container)
    (binding_policy : binding_policy_t) (buf : list ascii) :
  fill_program_name e binding_policy = Ok buf →
  zero ∉ representation (new_binder binding_policy) (data e) →
  c_string buf
  = string_of_list_ascii
      (prefix_char e :: representation (new_binder binding_policy) (data e)) ∧
  String.length (c_string buf) ≤ 255.
Proof.
  intros H Hno. apply fill_program_name_Ok in H as [-> Hlen].
  assert (zero ∉ prefix_char e :: representation (new_binder binding_policy) (data e))
    as Hno'.
  { rewrite not_elem_of_cons. split; [|done]. unfold prefix_char.
    by destruct (order e). }
  rewrite app_comm_cons, (c_string_terminated _ [] Hno').
  split; [done|]. simpl in Hlen. rewrite length_app in Hlen. simpl in Hlen.
  unfold program_name_size in Hlen.
  assert (∀ l, String.length (string_of_list_ascii l) = length l) as Hl
    by (induction l; simpl; congruence).
  rewrite Hl. simpl. lia.
Qed.

(** X12.  An independent batch and a sequential batch never get the same
    program name, whatever their expressions and the binding policies:
    the names start with different characters. *)
Theorem program_name_separates_orders (e e' : symbolic_expressions_container)
    (binding_policy binding_policy' : binding_policy_t) (buf buf' : list ascii) :
  fill_program_name e binding_policy = Ok buf →
  fill_program_name e' binding_policy' = Ok buf' →
  order e ≠ order e' →
  c_string buf ≠ c_string buf'.
Proof.
  intros H H' Hne.
  apply fill_program_name_Ok in H as [-> _]. apply fill_program_name_Ok in H' as [-> _].
  unfold prefix_char. simpl.
  destruct (order e), (order e'); try done; simpl; discriminate.
Qed.

End FingerprintProperties.

(** ** [detail]: names, types and profiles *)

Lemma get_expression_type_Ok_cases (name : string) (t : expression_type) :
  detail.get_expression_type name = Ok t →
  (name = "vaxpy" ∧ t = VECTOR_AXPY_TYPE) ∨ (name = "dot" ∧ t = REDUCTION_TYPE) ∨
  (name = "maxpy" ∧ t = MATRIX_AXPY_TYPE) ∨
  (name = "gemvN" ∧ t = ROW_WISE_REDUCTION_TYPE) ∨
  (name = "gemvT" ∧ t = COL_WISE_REDUCTION_TYPE) ∨
  (name = "gemmNN" ∧ t = MATRIX_PRODUCT_NN_TYPE) ∨
  (name = "gemmNT" ∧ t = MATRIX_PRODUCT_NT_TYPE) ∨
  (name = "gemmTN" ∧ t = MATRIX_PRODUCT_TN_TYPE) ∨
  (name = "gemmTT" ∧ t = MATRIX_PRODUCT_TT_TYPE).
Proof.
  unfold detail.get_expression_type.
  repeat match goal with
         | |- context [String.eqb name ?s] =>
             destruct (String.eqb_spec name s) as [->|?];
             [intros [= <-]; tauto|]
         end.
  discriminate.
Qed.

Lemma get_dtype_Ok_cases (name : string) (t : numeric_type) :
  detail.get_dtype name = Ok t →
  (name = "float32" ∧ t = FLOAT_TYPE) ∨ (name = "float64" ∧ t = DOUBLE_TYPE).
Proof.
  unfold detail.get_dtype.
  destruct (String.eqb_spec name "float32") as [->|?]; [intros [= <-]; tauto|].
  destruct (String.eqb_spec name "float64") as [->|?]; [intros [= <-]; tauto|].
  discriminate.
Qed.

(** X13.  [get_expression_type] and [get_dtype] decode names one to one:
    two names with the same type are the same name; no name gives
    [SCALAR_AXPY_TYPE], and [get_dtype] gives the two floating types only;
    any failure is the [invalid_argument] that quotes the name. *)
Theorem names_decode_one_to_one (name name' : string) :
  (∀ t, detail.get_expression_type name = Ok t →
        detail.get_expression_type name' = Ok t → name = name') ∧
  detail.get_expression_type name ≠ Ok SCALAR_AXPY_TYPE ∧
  (∀ f, detail.get_expression_type name = Fail f →
        f = invalid_argument ("Invalid expression: " ++ name)) ∧
  (∀ t, detail.get_dtype name = Ok t → detail.get_dtype name' = Ok t → name = name') ∧
  (∀ t, detail.get_dtype name = Ok t → t = FLOAT_TYPE ∨ t = DOUBLE_TYPE) ∧
  (∀ f, detail.get_dtype name = Fail f →
        f = invalid_argument ("Invalid datatype: " ++ name)).
Proof.
  split; [|split; [|split; [|split; [|split]]]].
  - intros t H H'.
    apply get_expression_type_Ok_cases in H, H'.
    destruct H as [[-> ->]|[[-> ->]|[[-> ->]|[[-> ->]|[[-> ->]|[[-> ->]|[[-> ->]|
                  [[-> ->]|[-> ->]]]]]]]]];
      destruct H' as [[-> [=]]|[[-> [=]]|[[-> [=]]|[[-> [=]]|[[-> [=]]|[[-> [=]]|
                     [[-> [=]]|[[-> [=]]|[-> [=]]]]]]]]]]; reflexivity.
  - intros H. apply get_expression_type_Ok_cases in H.
    by destruct H as [[_ [=]]|[[_ [=]]|[[_ [=]]|[[_ [=]]|[[_ [=]]|[[_ [=]]|[[_ [=]]|
                     [[_ [=]]|[_ [=]]]]]]]]]].
  - unfold detail.get_expression_type. intros f.
    repeat match goal with
           | |- context [String.eqb name ?s] => destruct (String.eqb name s); [done|]
           end.
    by intros [= <-].
  - intros t H H'. apply get_dtype_Ok_cases in H, H'.
    destruct H as [[-> ->]|[-> ->]]; destruct H' as [[-> [=]]|[-> [=]]]; reflexivity.
  - unfold detail.get_dtype. intros t.
    destruct (String.eqb name "float32"); [intros [= <-]; by left|].
    destruct (String.eqb name "float64"); [intros [= <-]; by right | done].
  - unfold detail.get_dtype. intros f.
    destruct (String.eqb name "float32"); [done|].
    destruct (String.eqb name "float64"); [done | by intros [= <-]].
Qed.

Lemma only_undefined_fetch_at (a : list Z) (i : nat) :
  only_undefined (detail.fetch_at a i).
Proof.
  apply only_undefined_bind; [apply only_undefined_at_index|]. intros z.
  case_decide; [apply only_undefined_at_index | by intros f [= <-]].
Qed.

Lemma fetch_at_Ok (a : list Z) (i : nat) (f : fetching_policy_type) :
  detail.fetch_at a i = Ok f → ∃ z, a !! i = Some z ∧ (0 ≤ z < 3)%Z.
Proof.
  unfold detail.fetch_at. intros H. bind_inv H. apply at_index_Ok_inv in E.
  exists a0. split; [done|]. case_decide; [|done].
  apply at_index_Ok_inv, lookup_lt_Some in H. simpl in H. lia.
Qed.

Lemma fetch_at_runs (a : list Z) (i : nat) :
  (∃ z, a !! i = Some z ∧ (0 ≤ z < 3)%Z) → ∃ f, detail.fetch_at a i = Ok f.
Proof.
  intros (z & Hz & Hrange). unfold detail.fetch_at.
  rewrite (at_index_Ok _ _ _ Hz), bind_Ok, decide_True by lia.
  destruct (lookup_lt_is_Some_2 detail.fetch (Z.to_nat z)) as [f Hf]; [simpl; lia|].
  exists f. by apply at_index_Ok.
Qed.

Lemma at_index_runs {A : Type} (v : list A) (i : nat) :
  i < length v → ∃ x, at_index v i = Ok x.
Proof.
  intros H. destruct (lookup_lt_is_Some_2 v i H) as [x Hx]. exists x.
  by apply at_index_Ok.
Qed.

(** Peel the [≫=] of a goal [only_undefined (r ≫= k)] in [create]. *)
Ltac only_ub :=
  repeat first
    [ apply only_undefined_Ok
    | apply only_undefined_bind;
      [first [apply only_undefined_at_index | apply only_undefined_fetch_at] | intros ?] ].

(** Run the reads of [create] on a profile known to be long enough. *)
Ltac run_reads a :=
  repeat first
    [ rewrite bind_Ok
    | match goal with
      | |- context [at_index a ?k] =>
          let z := fresh "z" in
          destruct (at_index_runs a k) as [z ->]; [simpl in *; lia|]
      | H : ∃ z, a !! ?k = Some z ∧ _ |- context [detail.fetch_at a ?k] =>
          let f := fresh "f" in
          destruct (fetch_at_runs a k H) as [f ->]
      end ].

(** Invert the reads of [create] in a hypothesis [... = Ok tpl]. *)
Ltac invert_reads H :=
  repeat (let a := fresh "a" in
          let E := fresh "E" in
          apply bind_Ok_inv in H; destruct H as (a & E & H);
          first [apply at_index_Ok_inv in E | apply fetch_at_Ok in E]).

Lemma create_known_name (name : string) (t : expression_type) (a : list Z) :
  detail.get_expression_type name = Ok t →
  ((∃ tpl, detail.create name a = Ok tpl) ↔ profile_ok t a) ∧
  only_undefined (detail.create name a) ∧
  ∀ tpl, detail.create name a = Ok tpl → template_kind tpl = t.
Proof.
  intros Hname. apply get_expression_type_Ok_cases in Hname.
  destruct Hname as [[-> ->]|[[-> ->]|[[-> ->]|[[-> ->]|[[-> ->]|[[-> ->]|[[-> ->]|
                    [[-> ->]|[-> ->]]]]]]]]];
    (unfold detail.create, detail.create_mproduct, profile_ok; simpl;
     split; [split|split];
    [ intros [tpl H]; invert_reads H;
      split;
      [ repeat match goal with
               | H : ∃ z, a !! _ = Some z ∧ _ |- _ => destruct H as (? & H & _)
               end;
        repeat match goal with
               | H : a !! _ = Some _ |- _ => apply lookup_lt_Some in H
               end;
        lia
      | repeat (apply Forall_cons; split; [assumption|]); apply Forall_nil_2 ]
    | intros [Hlen Hfetch];
      repeat match goal with
             | H : Forall _ (_ :: _) |- _ => apply Forall_cons in H as [? H]
             end;
      run_reads a; by eexists
    | only_ub
    | intros tpl H; invert_reads H; by injection H as <- ]).
Qed.

Lemma at_index_app {A : Type} (v w : list A) (i : nat) :
  i < length v → at_index (v ++ w) i = at_index v i.
Proof. intros H. unfold at_index. by rewrite lookup_app_l. Qed.

Lemma fetch_at_app (a extra : list Z) (i : nat) :
  i < length a → detail.fetch_at (a ++ extra) i = detail.fetch_at a i.
Proof. intros H. unfold detail.fetch_at. by rewrite at_index_app. Qed.

(** X14.  [create] and [get_expression_type] agree on the nine names: the
    template [create] builds for a name is of the kind
    [get_expression_type] gives for that name. *)
Theorem create_agrees_with_type (name : string) (t : expression_type) (a : list Z)
    (tpl : base) :
  detail.get_expression_type name = Ok t → detail.create name a = Ok tpl →
  template_kind tpl = t.
Proof.
  intros Hname H. by apply (create_known_name name t a Hname).
Qed.

(** X15.  For a name [get_expression_type] knows, [create] builds a
    template exactly when the profile has at least as many integers as the
    template takes and the ones used as fetch subscripts are 0, 1 or 2;
    otherwise it reads outside the profile or outside [fetch], which is
    undefined behaviour, never a reported error.  Integers beyond the
    arity are not looked at. *)
Theorem create_accepts_iff (name : string) (t : expression_type) (a : list Z) :
  detail.get_expression_type name = Ok t →
  ((∃ tpl, detail.create name a = Ok tpl) ↔ profile_ok t a) ∧
  only_undefined (detail.create name a) ∧
  (arity t ≤ length a → ∀ extra, detail.create name (a ++ extra) = detail.create name a).
Proof.
  intros Hname. destruct (create_known_name name t a Hname) as (Hiff & Hub & _).
  split; [done|]. split; [done|]. intros Hlen extra.
  apply get_expression_type_Ok_cases in Hname.
  destruct Hname as [[-> ->]|[[-> ->]|[[-> ->]|[[-> ->]|[[-> ->]|[[-> ->]|[[-> ->]|
                    [[-> ->]|[-> ->]]]]]]]]];
    (unfold detail.create, detail.create_mproduct; simpl; simpl in Hlen;
     rewrite ?at_index_app, ?fetch_at_app by lia; reflexivity).
Qed.

Lemma substring_names_cases (key : string) :
  key ∈ substring_names →
  key = "gemvN" ∨ key = "gemvT" ∨ key = "gemmNN" ∨ key = "gemmTN" ∨
  key = "gemmNT" ∨ key = "gemmTT".
Proof. unfold substring_names. rewrite !elem_of_cons, elem_of_nil. tauto. Qed.

(** X16.  [create] is laxer than [get_expression_type]: it rejects a name
    only if [get_expression_type] rejects it too, but it never rejects a
    name in which one of the gemv and gemm names occurs, however the name
    goes on before and after. *)
Theorem create_is_laxer (name : string) (a : list Z) :
  (∀ what, detail.create name a = Fail (invalid_argument what) →
           ∃ what', detail.get_expression_type name = Fail (invalid_argument what')) ∧
  (∀ key, key ∈ substring_names → occurs_in key name →
          no_invalid_argument (detail.create name a)).
Proof.
  split.
  - intros what H. destruct (detail.get_expression_type name) as [t|f] eqn:Hname.
    + destruct (create_known_name name t a Hname) as (_ & Hub & _).
      by apply Hub in H.
    + revert Hname. unfold detail.get_expression_type.
      repeat match goal with
             | |- context [String.eqb name ?s] => destruct (String.eqb name s); [done|]
             end.
      intros [= <-]. by eexists.
  - intros key Hkey Hoccurs. apply contains_occurs in Hoccurs.
    unfold detail.create.
    repeat match goal with
           | |- context [String.eqb name ?s] => destruct (String.eqb name s); [no_throw|]
           end.
    repeat match goal with
           | |- context [if contains name ?s then _ else _] =>
               destruct (contains name s) eqn:?;
               [first [no_throw | apply no_invalid_argument_create_mproduct]|]
           end.
    apply substring_names_cases in Hkey.
    destruct Hkey as [->|[->|[->|[->|[->| ->]]]]]; congruence.
Qed.

Section ImportFrame.
Context {C : Collaborators}.

(** ** What [import] writes *)

Lemma for_each_preserves {A S : Type} (R : S → S → Prop) (body : S → A → outcome S)
    (l : list A) (s s' : S) :
  (∀ x, R x x) → (∀ x y z, R x y → R y z → R x z) →
  (∀ x a y, a ∈ l → body x a = Ok y → R x y) →
  for_each body s l = Ok s' → R s s'.
Proof.
  intros Hrefl Htrans. revert s. induction l as [|a l IH]; intros s Hbody H; simpl in H.
  - injection H as <-. apply Hrefl.
  - bind_inv H. apply (Htrans _ a0).
    + apply (Hbody s a); [by left | done].
    + apply IH; [|done]. intros x b y Hb. apply Hbody. by right.
Qed.

Lemma import_frame_refl (r : gmap (expression_type * numeric_type) model) :
  import_frame r r.
Proof. by split. Qed.

Lemma import_frame_trans (r1 r2 r3 : gmap (expression_type * numeric_type) model) :
  import_frame r1 r2 → import_frame r2 r3 → import_frame r1 r3.
Proof.
  intros [H12 H12'] [H23 H23']. split.
  - intros key Hkey. by rewrite H23, H12.
  - intros key Hkey. by apply H23', H12'.
Qed.

Lemma import_frame_insert (r : gmap (expression_type * numeric_type) model)
    (key : expression_type * numeric_type) (mdl : model) :
  importable key → import_frame r (<[key := mdl]> r).
Proof.
  intros Hkey. split.
  - intros key' Hkey'. apply lookup_insert_ne. by intros ->.
  - intros key' Hsome. destruct (decide (key = key')) as [->|Hne].
    + rewrite lookup_insert_eq. by eexists.
    + by rewrite lookup_insert_ne.
Qed.

Lemma import_dtype_frame (document : Value) (queue : CommandQueue) (op dt : string)
    (etype : expression_type) (r r' : gmap (expression_type * numeric_type) model) :
  op ∈ operations → detail.get_expression_type op = Ok etype →
  import_dtype document queue op etype r dt = Ok r' → import_frame r r'.
Proof.
  intros Hop Hetype H. unfold import_dtype in H.
  bind_inv H. bind_inv H. destruct a0; [|injection H as <-; apply import_frame_refl].
  bind_inv H. apply get_dtype_Ok_cases in E1.
  assert (importable (etype, a0)) as Hkey.
  { split; [by exists op | simpl; tauto]. }
  bind_inv H. bind_inv H. bind_inv H. case_decide.
  - bind_inv H. injection H as <-. by apply import_frame_insert.
  - injection H as <-. by apply import_frame_insert.
Qed.

Lemma import_import_frame (document : Value) (queue : CommandQueue)
    (r r' : gmap (expression_type * numeric_type) model) :
  import document queue r = Ok r' → import_frame r r'.
Proof.
  unfold import.
  apply (for_each_preserves import_frame);
    [apply import_frame_refl | apply import_frame_trans |].
  intros x op y Hop H. unfold import_operation in H.
  bind_inv H. destruct a; [|injection H as <-; apply import_frame_refl].
  bind_inv H. revert H.
  apply (for_each_preserves import_frame);
    [apply import_frame_refl | apply import_frame_trans |].
  intros x' dt y' Hdt H. by eapply import_dtype_frame.
Qed.

Lemma not_importable (etype : expression_type) (t : numeric_type) :
  etype = SCALAR_AXPY_TYPE ∨ etype = MATRIX_PRODUCT_NT_TYPE ∨
  (t ≠ FLOAT_TYPE ∧ t ≠ DOUBLE_TYPE) →
  ¬ importable (etype, t).
Proof.
  intros Hcases [(op & Hop & Hetype) Ht]. simpl in *.
  destruct Hcases as [->|[->|[? ?]]]; [| |tauto];
    apply operations_cases in Hop;
    destruct Hop as [->|[->|[->|[->|[->|[->|[->| ->]]]]]]]; discriminate Hetype.
Qed.

(** X17.  A returning [import] has written only under keys it can reach:
    the models of the scalar axpy and of the NT matrix product, and every
    model of a type other than float and double, are the ones that were
    there; and no key of the map is lost. *)
Theorem import_writes_only_its_keys (document : Value) (queue : CommandQueue)
    (r r' : gmap (expression_type * numeric_type) model) :
  import document queue r = Ok r' →
  (∀ etype t,
     etype = SCALAR_AXPY_TYPE ∨ etype = MATRIX_PRODUCT_NT_TYPE ∨
     (t ≠ FLOAT_TYPE ∧ t ≠ DOUBLE_TYPE) →
     r' !! (etype, t) = r !! (etype, t)) ∧
  (∀ key, is_Some (r !! key) → is_Some (r' !! key)).
Proof.
  intros H. apply import_import_frame in H as [Hframe Hkeys]. split; [|done].
  intros etype t Hcases. apply Hframe. by apply not_importable.
Qed.

(** ** What [import] builds *)

(** The loop of [get_profiles] from profile [i] on. *)
Lemma get_profiles_loop (op : string) (ps : list Value) (n i : nat)
    (acc templates : list base) :
  for_each
    (fun templates id =>
       profile ← element (JArray ps) id;
       a ← to_int_array profile;
       tpl ← detail.create op a;
       Ok (templates ++ [tpl]))
    acc (seq i n) = Ok templates →
  ∃ new, templates = acc ++ new ∧
         Forall2 (λ p tpl, ∃ a, to_int_array p = Ok a ∧ detail.create op a = Ok tpl)
                 (take n (drop i ps)) new.
Proof.
  revert i acc. induction n as [|n IH]; intros i acc H; simpl in H.
  - injection H as <-. exists []. rewrite app_nil_r, take_0. by split.
  - bind_inv H. bind_inv E. bind_inv E. bind_inv E. injection E as <-.
    apply IH in H as (new & -> & Hnew).
    simpl in E0. destruct (ps !! i) as [p|] eqn:Hp; [|done]. injection E0 as ->.
    exists (a2 :: new). split; [by rewrite <- app_assoc|].
    rewrite (drop_S _ _ _ Hp). simpl. constructor; [by exists a1 | done].
Qed.

Lemma get_profiles_each (op : string) (ps : list Value) (templates : list base) :
  get_profiles op (JArray ps) = Ok templates →
  Forall2 (λ p tpl, ∃ a, to_int_array p = Ok a ∧ detail.create op a = Ok tpl)
          ps templates.
Proof.
  unfold get_profiles. simpl. intros H.
  apply get_profiles_loop in H as (new & -> & Hnew).
  by rewrite drop_0, firstn_all in Hnew.
Qed.

(** X18.  For one of the eight names with one data type, [import] puts
    under the key a fresh model: one template per profile, each the
    [create] of its profile, in the order of the file; a predictor only
    when there is more than one; no override and nothing compiled, whatever
    the model that was under the key had. *)
Theorem import_builds_fresh_model (op dt : string) (leaf : Value) (ps : list Value)
    (etype : expression_type) (t : numeric_type) (templates : list base)
    (queue : CommandQueue) (r : gmap (expression_type * numeric_type) model) :
  op ∈ operations → dt ∈ dtype →
  detail.get_expression_type op = Ok etype → detail.get_dtype dt = Ok t →
  member leaf "profiles" = Ok (JArray ps) →
  get_profiles op (JArray ps) = Ok templates →
  (1 < length templates → ∃ description, member leaf "predictor" = Ok description) →
  ∃ mdl,
    import (JObject [(op, JObject [(dt, leaf)])]) queue r = Ok (<[(etype, t) := mdl]> r) ∧
    templates_ mdl = templates ∧
    Forall2 (λ p tpl, ∃ a, to_int_array p = Ok a ∧ detail.create op a = Ok tpl)
            ps templates ∧
    (predictor_ mdl = None ↔ length templates ≤ 1) ∧
    hardcoded_ mdl = ∅ ∧ lazy_programs_ mdl = ∅ ∧ queue_ mdl = queue.
Proof.
  intros Hop Hdt Hetype Ht Hprofiles Htemplates Hpredictor.
  assert (∃ mdl, imported_model leaf templates queue = Ok mdl ∧
                 templates_ mdl = templates ∧
                 (predictor_ mdl = None ↔ length templates ≤ 1) ∧
                 hardcoded_ mdl = ∅ ∧ lazy_programs_ mdl = ∅ ∧ queue_ mdl = queue)
    as (mdl & Hmdl & Hshape).
  { unfold imported_model. case_decide as Hmany.
    - destruct (Hpredictor Hmany) as [description ->]. rewrite bind_Ok.
      eexists. split; [done|]. simpl. split; [done|]. split; [|done].
      split; [intros [=] | intros; lia].
    - eexists. split; [done|]. simpl. split; [done|]. split; [|done].
      split; [intros; lia | done]. }
  exists mdl. split; [by eapply import_listed_operation|].
  destruct Hshape as (Htemplates' & Hpred & Hh & Hl & Hq).
  split; [done|]. split; [by apply get_profiles_each|]. done.
Qed.

End ImportFrame.

Section EmptyModel.
Context {C : Collaborators} {T : Templates}.

Lemma no_template_no_run (m : model) (e : symbolic_expressions_container) :
  templates_ m = [] →
  (∀ bypass force, ∃ f, execute m e bypass force = Fail f) ∧
  (∀ timer_get, ∃ f, tune m e timer_get = Fail f).
Proof.
  intros Hnone. split.
  - intros bypass force. destruct (execute m e bypass force) as [m'|f] eqn:H; [|by eexists].
    apply execute_inv in H as (? & ? & tpl0 & ? & ? & _ & _ & H0 & _).
    by rewrite Hnone in H0.
  - intros timer_get. destruct (tune m e timer_get) as [m'|f] eqn:H; [|by eexists].
    apply tune_inv in H as (? & ? & ? & tpl0 & _ & _ & H0 & _).
    by rewrite Hnone in H0.
Qed.

(** X19.  [import] takes an empty list of profiles: for one of the eight
    names it then registers a model without any template, and on such a
    model no [execute] and no [tune] ever returns ([templates_[0]] is read
    in both). *)
Theorem import_empty_profiles (op dt : string) (leaf : Value)
    (etype : expression_type) (t : numeric_type) (queue : CommandQueue)
    (r : gmap (expression_type * numeric_type) model) :
  op ∈ operations → dt ∈ dtype →
  detail.get_expression_type op = Ok etype → detail.get_dtype dt = Ok t →
  member leaf "profiles" = Ok (JArray []) →
  import (JObject [(op, JObject [(dt, leaf)])]) queue r
  = Ok (<[(etype, t) := model_of_templates [] queue]> r) ∧
  ∀ e,
    (∀ bypass force, ∃ f, execute (model_of_templates [] queue) e bypass force = Fail f) ∧
    (∀ timer_get, ∃ f, tune (model_of_templates [] queue) e timer_get = Fail f).
Proof.
  intros Hop Hdt Hetype Ht Hprofiles. split.
  - by eapply import_listed_operation.
  - intros e. by apply no_template_no_run.
Qed.

End EmptyModel.

Section RegistryProperties.
Context {C : Collaborators}.

(** ** The registry *)

Lemma default_models_lookup (queue : CommandQueue) (etype : expression_type)
    (t : numeric_type) :
  ∃ tpl, foldl (default_models queue) ∅ types !! (etype, t)
         = Some (model_of_template tpl queue) ∧
         template_kind tpl
         = (if decide (etype = SCALAR_AXPY_TYPE) then VECTOR_AXPY_TYPE else etype).
Proof.
  destruct etype, t; eexists; (split; [vm_compute; reflexivity | reflexivity]).
Qed.

(** X20.  Without a model file, [init_models] gives a map with a model for
    each of the ten expression types at each of the ten numeric types: one
    template of the kind of the key (a [vaxpy] for the scalar axpy), no
    predictor, no override, nothing compiled. *)
Theorem init_models_default (queue : CommandQueue) (etype : expression_type)
    (t : numeric_type) :
  ∃ res tpl,
    init_models queue None = Ok res ∧
    res !! (etype, t) = Some (model_of_template tpl queue) ∧
    template_kind tpl
    = (if decide (etype = SCALAR_AXPY_TYPE) then VECTOR_AXPY_TYPE else etype).
Proof.
  destruct (default_models_lookup queue etype t) as (tpl & Hlookup & Hkind).
  by exists (foldl (default_models queue) ∅ types), tpl.
Qed.

Lemma init_models_total (queue : CommandQueue) (model_file : option Value)
    (res : gmap (expression_type * numeric_type) model) :
  init_models queue model_file = Ok res → ∀ key, is_Some (res !! key).
Proof.
  unfold init_models. intros H [etype t].
  destruct (default_models_lookup queue etype t) as (tpl & Hlookup & _).
  destruct model_file as [document|].
  - apply import_import_frame in H as [_ Hkeys]. apply Hkeys. by eexists.
  - injection H as <-. by eexists.
Qed.

(** X21.  With a model file, a returning [init_models] still has a model
    for every key, and the models of the scalar axpy, of the NT matrix
    product and of every type other than float and double are the default
    single-template ones: the file cannot change them. *)
Theorem init_models_with_file (queue : CommandQueue) (document : Value)
    (res : gmap (expression_type * numeric_type) model) :
  init_models queue (Some document) = Ok res →
  (∀ key, is_Some (res !! key)) ∧
  (∀ etype t,
     etype = SCALAR_AXPY_TYPE ∨ etype = MATRIX_PRODUCT_NT_TYPE ∨
     (t ≠ FLOAT_TYPE ∧ t ≠ DOUBLE_TYPE) →
     ∃ tpl, res !! (etype, t) = Some (model_of_template tpl queue) ∧
            template_kind tpl
            = (if decide (etype = SCALAR_AXPY_TYPE) then VECTOR_AXPY_TYPE else etype)).
Proof.
  intros H. split; [by eapply init_models_total|].
  intros etype t Hcases.
  destruct (default_models_lookup queue etype t) as (tpl & Hlookup & Hkind).
  exists tpl. split; [|done]. unfold init_models in H.
  apply import_import_frame in H as [Hframe _].
  rewrite Hframe; [done | by apply not_importable].
Qed.

(** X22.  [get_model_map] builds the map of a queue once: after a
    returning call, every later call for the same queue returns the map
    stored then without looking at the queue or at the model file again,
    and the maps of the other queues are not touched. *)
Theorem get_model_map_caches
    (models models' : gmap Z (gmap (expression_type * numeric_type) model))
    (handle : Z) (queue : CommandQueue) (model_file : option Value)
    (res : gmap (expression_type * numeric_type) model) :
  get_model_map models handle queue model_file = Ok (res, models') →
  models' !! handle = Some res ∧
  (∀ handle', handle' ≠ handle → models' !! handle' = models !! handle') ∧
  (∀ queue' model_file',
     get_model_map models' handle queue' model_file' = Ok (res, models')).
Proof.
  unfold get_model_map. intros H.
  assert (models' !! handle = Some res ∧
          ∀ handle', handle' ≠ handle → models' !! handle' = models !! handle')
    as [Hstored Hothers].
  { destruct (models !! handle) as [stored|] eqn:Hfound.
    - by injection H as <- <-.
    - bind_inv H. injection H as <- <-. split; [apply lookup_insert_eq|].
      intros handle' Hne. by apply lookup_insert_ne. }
  split; [done|]. split; [done|]. intros queue' model_file'. by rewrite Hstored.
Qed.

Lemma get_model_map_total
    (models models' : gmap Z (gmap (expression_type * numeric_type) model))
    (handle : Z) (queue : CommandQueue) (model_file : option Value)
    (res : gmap (expression_type * numeric_type) model) :
  registry_total models →
  get_model_map models handle queue model_file = Ok (res, models') →
  registry_total models' ∧ ∀ key, is_Some (res !! key).
Proof.
  unfold get_model_map. intros Htotal H.
  destruct (models !! handle) as [stored|] eqn:Hfound.
  - injection H as <- <-. split; [done|]. by apply (Htotal handle).
  - bind_inv H. injection H as <- <-.
    pose proof (init_models_total _ _ _ E) as Hres. split; [|done].
    intros handle' res'. destruct (decide (handle' = handle)) as [->|Hne].
    + rewrite lookup_insert_eq. by intros [= <-].
    + rewrite lookup_insert_ne by done. apply Htotal.
Qed.

Lemma get_model_map_without_file
    (models : gmap Z (gmap (expression_type * numeric_type) model))
    (handle : Z) (queue : CommandQueue) :
  ∃ res models', get_model_map models handle queue None = Ok (res, models').
Proof.
  unfold get_model_map. destruct (models !! handle) as [stored|]; [by eexists _, _|].
  simpl. by eexists _, _.
Qed.

(** X23.  [get_model] does not throw [std::out_of_range].  If every map in
    the registry has a model for every key (so for the empty registry),
    every map [get_model_map] stores has too; hence whenever
    [get_model_map] returns, the lookup with [at] finds a model, and when
    it fails (the import of the model file failed), [get_model] ends in
    that same failure.  With no model file [get_model_map] always returns,
    and [get_model] finds a model for every key. *)
Theorem get_model_finds
    (models : gmap Z (gmap (expression_type * numeric_type) model))
    (handle : Z) (queue : CommandQueue) (model_file : option Value)
    (expression : expression_type) (t : numeric_type) :
  registry_total models →
  get_model models handle queue model_file expression t ≠ out_of_range ∧
  (∀ res models', get_model_map models handle queue model_file = Ok (res, models') →
                  registry_total models' ∧
                  ∃ m, get_model models handle queue model_file expression t
                       = Found (m, models')) ∧
  (∀ f, get_model_map models handle queue model_file = Fail f →
        get_model models handle queue model_file expression t = Failed f) ∧
  (∃ m models', get_model models handle queue None expression t = Found (m, models')) ∧
  registry_total (∅ : gmap Z (gmap (expression_type * numeric_type) model)).
Proof.
  intros Htotal.
  assert (∀ file res models',
            get_model_map models handle queue file = Ok (res, models') →
            ∃ m, get_model models handle queue file expression t = Found (m, models'))
    as Hfound.
  { intros file res models' H.
    destruct (get_model_map_total _ _ _ _ _ _ Htotal H) as [_ Hres].
    unfold get_model. rewrite H. destruct (Hres (expression, t)) as [m ->]. by exists m. }
  split; [|split; [|split; [|split]]].
  - unfold get_model.
    destruct (get_model_map models handle queue model_file) as [[res models']|f] eqn:H;
      [|done].
    destruct (get_model_map_total _ _ _ _ _ _ Htotal H) as [_ Hres].
    by destruct (Hres (expression, t)) as [m ->].
  - intros res models' H. split; [|by eapply Hfound].
    by destruct (get_model_map_total _ _ _ _ _ _ Htotal H).
  - intros f H. unfold get_model. by rewrite H.
  - destruct (get_model_map_without_file models handle queue) as (res & models' & H).
    destruct (Hfound None res models' H) as [m Hm]. by exists m, models'.
  - intros handle' res'. by rewrite lookup_empty.
Qed.

End RegistryProperties.

(** ** The further properties at work on the concrete backend *)

Section MoreRuns.
Import Stub.

#[local] Existing Instance collaborators.
#[local] Existing Instance templates.

Lemma init_miss_shells_run :
  ∃ buf set m1,
    fill_program_name batch BIND_TO_HANDLE = Ok buf ∧
    init two_variants batch 7%Z device true = Ok (set, m1) ∧
    set = [ {| lc_context := 7%Z; lc_name := c_string buf;
               lc_force_recompilation := true;
               lc_sources := define_extension (device_extensions device) "cl_khr_fp64"
                             :: slot_sources 0 0 (templates_ two_variants) batch device |};
            {| lc_context := 7%Z; lc_name := (c_string buf ++ "_fb")%string;
               lc_force_recompilation := true;
               lc_sources := define_extension (device_extensions device) "cl_khr_fp64"
                             :: slot_sources 1 0 (templates_ two_variants) batch device |} ].
Proof.
  eexists _, _, _. split; [vm_compute; reflexivity|].
  split; [vm_compute; reflexivity|].
  eapply (init_miss_shells two_variants _ batch 7%Z device true);
    [vm_compute; reflexivity | reflexivity | vm_compute; reflexivity].
Defined.

Lemma init_touches_one_entry_run :
  ∃ buf set m1,
    fill_program_name batch BIND_TO_HANDLE = Ok buf ∧
    init two_variants_tuned batch 7%Z device false = Ok (set, m1) ∧
    templates_ m1 = templates_ two_variants_tuned ∧
    predictor_ m1 = predictor_ two_variants_tuned ∧
    hardcoded_ m1 = hardcoded_ two_variants_tuned ∧
    queue_ m1 = queue_ two_variants_tuned ∧
    cache_entry m1 7%Z (c_string buf) = set ∧
    ∀ ctx' pname', (ctx', pname') ≠ (7%Z, c_string buf) →
                   cache_entry m1 ctx' pname' = cache_entry two_variants_tuned ctx' pname'.
Proof.
  eexists _, _, _. split; [vm_compute; reflexivity|].
  split; [vm_compute; reflexivity|].
  eapply (init_touches_one_entry two_variants_tuned _ batch 7%Z device false);
    [vm_compute; reflexivity | vm_compute; reflexivity].
Defined.

Lemma init_miss_returns_or_overruns_run :
  ∃ buf,
    fill_program_name batch BIND_TO_HANDLE = Ok buf ∧
    cache_entry three_variants 7%Z (c_string buf) = [] ∧
    ((∀ k tpl, templates_ three_variants !! k = Some tpl →
               length (generate tpl k batch device) ≤ 2) →
     ∃ set m1, init three_variants batch 7%Z device false = Ok (set, m1)) ∧
    ((∃ k tpl, templates_ three_variants !! k = Some tpl ∧
               2 < length (generate tpl k batch device)) →
     init three_variants batch 7%Z device false = Fail undefined_behaviour).
Proof.
  eexists. split; [vm_compute; reflexivity|]. split; [reflexivity|].
  eapply (init_miss_returns_or_overruns three_variants batch 7%Z device false);
    [vm_compute; reflexivity | reflexivity].
Defined.

Lemma execute_submits_one_command_run :
  ∃ m',
    execute two_variants batch false false = Ok m' ∧
    templates_ m' = templates_ two_variants ∧ predictor_ m' = predictor_ two_variants ∧
    queue_context (queue_ m') = queue_context (queue_ two_variants) ∧
    queue_device (queue_ m') = queue_device (queue_ two_variants) ∧
    ∃ buf tpl label,
      fill_program_name batch BIND_TO_HANDLE = Ok buf ∧
      templates_ two_variants !! label = Some tpl ∧
      queue_commands (queue_ m')
      = queue_commands (queue_ two_variants)
        ++ [enqueued tpl (cache_entry m' (context batch) (c_string buf)) label batch].
Proof.
  eexists. split; [vm_compute; reflexivity|].
  apply (execute_submits_one_command two_variants _ batch false false).
  vm_compute; reflexivity.
Defined.

Lemma execute_repeatable_run :
  ∃ m1,
    execute two_variants batch false false = Ok m1 ∧
    ∃ m2 cmd,
      execute m1 batch false true = Ok m2 ∧
      lazy_programs_ m2 = lazy_programs_ m1 ∧ hardcoded_ m2 = hardcoded_ m1 ∧
      queue_commands (queue_ m1) = queue_commands (queue_ two_variants) ++ [cmd] ∧
      queue_commands (queue_ m2) = queue_commands (queue_ m1) ++ [cmd].
Proof.
  eexists. split; [vm_compute; reflexivity|].
  apply (execute_repeatable two_variants _ batch false false true).
  vm_compute; reflexivity.
Defined.

Lemma tune_runs_every_template_run :
  ∃ m',
    tune two_variants batch measured = Ok m' ∧
    ∃ compilers m1 tpl0,
      init two_variants batch (context batch) (queue_device (queue_ two_variants)) false
      = Ok (compilers, m1) ∧
      templates_ two_variants !! 0 = Some tpl0 ∧
      queue_commands (queue_ m')
      = queue_commands (queue_ two_variants)
        ++ tuning_commands compilers batch 0 (templates_ two_variants) ∧
      templates_ m' = templates_ two_variants ∧ predictor_ m' = predictor_ two_variants ∧
      lazy_programs_ m' = lazy_programs_ m1 ∧
      ∀ x, x ≠ input_sizes tpl0 batch → hardcoded_ m' !! x = hardcoded_ two_variants !! x.
Proof.
  eexists. split; [vm_compute; reflexivity|].
  apply (tune_runs_every_template two_variants _ batch measured).
  vm_compute; reflexivity.
Defined.

Lemma two_variants_tuned_override_wf : override_wf two_variants_tuned.
Proof.
  intros x label H. unfold two_variants_tuned in H. simpl in H.
  apply lookup_insert_Some in H as [[_ <-]|[_ H]]; [simpl; lia|].
  by rewrite lookup_empty in H.
Defined.

Lemma overrides_stay_in_range_run :
  override_wf two_variants_tuned ∧
  (∀ bypass force m',
     execute two_variants_tuned batch bypass force = Ok m' → override_wf m') ∧
  (∀ timer_get m', tune two_variants_tuned batch timer_get = Ok m' → override_wf m').
Proof.
  split; [exact two_variants_tuned_override_wf|].
  apply (overrides_stay_in_range two_variants_tuned batch).
  exact two_variants_tuned_override_wf.
Defined.

Lemma two_variants_cache_wf : cache_wf two_variants.
Proof.
  intros ctx pname. left. unfold cache_entry. simpl.
  rewrite lookup_empty. simpl. by rewrite lookup_empty.
Defined.

Lemma cache_stays_well_formed_run :
  cache_wf two_variants ∧
  (∀ ctx device force set m1,
     init two_variants batch ctx device force = Ok (set, m1) →
     cache_wf m1 ∧ length set = 2) ∧
  (∀ bypass force m', execute two_variants batch bypass force = Ok m' → cache_wf m') ∧
  (∀ timer_get m', tune two_variants batch timer_get = Ok m' → cache_wf m').
Proof.
  split; [exact two_variants_cache_wf|].
  apply (cache_stays_well_formed two_variants batch). exact two_variants_cache_wf.
Defined.

Lemma program_name_is_whole_run :
  ∃ buf,
    fill_program_name batch BIND_TO_HANDLE = Ok buf ∧
    (zero ∉ representation (new_binder BIND_TO_HANDLE) (data batch)) ∧
    c_string buf
    = string_of_list_ascii
        (prefix_char batch :: representation (new_binder BIND_TO_HANDLE) (data batch)) ∧
    String.length (c_string buf) ≤ 255.
Proof.
  assert (zero ∉ representation (new_binder BIND_TO_HANDLE) (data batch)) as Hno.
  { simpl. rewrite !not_elem_of_cons. repeat split; [discriminate..|apply not_elem_of_nil]. }
  eexists. split; [vm_compute; reflexivity|]. split; [exact Hno|].
  apply (program_name_is_whole batch BIND_TO_HANDLE); [vm_compute; reflexivity | exact Hno].
Defined.

Lemma program_name_separates_orders_run :
  ∃ buf buf',
    fill_program_name batch BIND_TO_HANDLE = Ok buf ∧
    fill_program_name independent_batch BIND_TO_HANDLE = Ok buf' ∧
    order batch ≠ order independent_batch ∧
    c_string buf ≠ c_string buf'.
Proof.
  eexists _, _. split; [vm_compute; reflexivity|]. split; [vm_compute; reflexivity|].
  split; [discriminate|].
  apply (program_name_separates_orders batch independent_batch
           BIND_TO_HANDLE BIND_TO_HANDLE);
    [vm_compute; reflexivity | vm_compute; reflexivity | discriminate].
Defined.

Lemma create_agrees_with_type_run :
  detail.get_expression_type "gemmNT" = Ok MATRIX_PRODUCT_NT_TYPE ∧
  detail.create "gemmNT" [1; 8; 8; 8; 4; 1; 4; 0; 2; 8; 8]%Z
  = Ok (mproduct_nt 1 8 8 8 4 1 4 FETCH_FROM_LOCAL FETCH_FROM_GLOBAL_CONTIGUOUS 8 8) ∧
  template_kind
    (mproduct_nt 1 8 8 8 4 1 4 FETCH_FROM_LOCAL FETCH_FROM_GLOBAL_CONTIGUOUS 8 8)
  = MATRIX_PRODUCT_NT_TYPE.
Proof.
  split; [reflexivity|]. split; [reflexivity|].
  apply (create_agrees_with_type "gemmNT" MATRIX_PRODUCT_NT_TYPE
           [1; 8; 8; 8; 4; 1; 4; 0; 2; 8; 8]%Z); reflexivity.
Defined.

Lemma create_accepts_iff_run :
  detail.get_expression_type "maxpy" = Ok MATRIX_AXPY_TYPE ∧
  ((∃ tpl, detail.create "maxpy" [1; 8; 8; 8; 8; 3]%Z = Ok tpl)
   ↔ profile_ok MATRIX_AXPY_TYPE [1; 8; 8; 8; 8; 3]%Z) ∧
  only_undefined (detail.create "maxpy" [1; 8; 8; 8; 8; 3]%Z) ∧
  (arity MATRIX_AXPY_TYPE ≤ length [1; 8; 8; 8; 8; 3]%Z →
   ∀ extra, detail.create "maxpy" ([1; 8; 8; 8; 8; 3]%Z ++ extra)
            = detail.create "maxpy" [1; 8; 8; 8; 8; 3]%Z).
Proof.
  split; [reflexivity|].
  apply (create_accepts_iff "maxpy" MATRIX_AXPY_TYPE [1; 8; 8; 8; 8; 3]%Z). reflexivity.
Defined.

Lemma import_writes_only_its_keys_run :
  ∃ r',
    import vaxpy_document queue ∅ = Ok r' ∧
    (∀ etype t,
       etype = SCALAR_AXPY_TYPE ∨ etype = MATRIX_PRODUCT_NT_TYPE ∨
       (t ≠ FLOAT_TYPE ∧ t ≠ DOUBLE_TYPE) →
       r' !! (etype, t)
       = (∅ : gmap (expression_type * numeric_type) model) !! (etype, t)) ∧
    (∀ key, is_Some ((∅ : gmap (expression_type * numeric_type) model) !! key) →
            is_Some (r' !! key)).
Proof.
  eexists. split; [vm_compute; reflexivity|].
  apply (import_writes_only_its_keys vaxpy_document queue ∅).
  vm_compute; reflexivity.
Defined.

Lemma import_builds_fresh_model_run :
  ∃ mdl,
    import (JObject [("vaxpy", JObject [("float32", vaxpy_leaf)])]) queue ∅
    = Ok (<[(VECTOR_AXPY_TYPE, FLOAT_TYPE) := mdl]> ∅) ∧
    templates_ mdl = [vaxpy 1 64 128 FETCH_FROM_GLOBAL_STRIDED] ∧
    Forall2 (λ p tpl, ∃ a, to_int_array p = Ok a ∧ detail.create "vaxpy" a = Ok tpl)
            [JArray [JInt 1; JInt 64; JInt 128; JInt 1]]
            [vaxpy 1 64 128 FETCH_FROM_GLOBAL_STRIDED] ∧
    (predictor_ mdl = None ↔ length [vaxpy 1 64 128 FETCH_FROM_GLOBAL_STRIDED] ≤ 1) ∧
    hardcoded_ mdl = ∅ ∧ lazy_programs_ mdl = ∅ ∧ queue_ mdl = queue.
Proof.
  apply (import_builds_fresh_model "vaxpy" "float32" vaxpy_leaf
           [JArray [JInt 1; JInt 64; JInt 128; JInt 1]]
           VECTOR_AXPY_TYPE FLOAT_TYPE [vaxpy 1 64 128 FETCH_FROM_GLOBAL_STRIDED] queue ∅).
  - unfold operations. apply elem_of_cons. by left.
  - unfold dtype. apply elem_of_cons. by left.
  - reflexivity.
  - reflexivity.
  - reflexivity.
  - reflexivity.
  - simpl. lia.
Defined.

Lemma import_empty_profiles_run :
  import (JObject [("dot", JObject [("float64", JObject [("profiles", JArray [])])])])
         queue ∅
  = Ok (<[(REDUCTION_TYPE, DOUBLE_TYPE) := model_of_templates [] queue]> ∅) ∧
  ∀ e,
    (∀ bypass force, ∃ f, execute (model_of_templates [] queue) e bypass force = Fail f) ∧
    (∀ timer_get, ∃ f, tune (model_of_templates [] queue) e timer_get = Fail f).
Proof.
  apply (import_empty_profiles "dot" "float64" (JObject [("profiles", JArray [])])
           REDUCTION_TYPE DOUBLE_TYPE queue ∅).
  - unfold operations. apply elem_of_cons. right. apply elem_of_cons. by left.
  - unfold dtype. apply elem_of_cons. right. apply elem_of_cons. by left.
  - reflexivity.
  - reflexivity.
  - reflexivity.
Defined.

Lemma init_models_with_file_run :
  init_models queue (Some vaxpy_document)
  = Ok (<[(VECTOR_AXPY_TYPE, FLOAT_TYPE) :=
            model_of_templates [vaxpy 1 64 128 FETCH_FROM_GLOBAL_STRIDED] queue]>
          (foldl (default_models queue) ∅ types)) ∧
  (∀ key, is_Some ((<[(VECTOR_AXPY_TYPE, FLOAT_TYPE) :=
                        model_of_templates [vaxpy 1 64 128 FETCH_FROM_GLOBAL_STRIDED] queue]>
                      (foldl (default_models queue) ∅ types)) !! key)) ∧
  (∀ etype t,
     etype = SCALAR_AXPY_TYPE ∨ etype = MATRIX_PRODUCT_NT_TYPE ∨
     (t ≠ FLOAT_TYPE ∧ t ≠ DOUBLE_TYPE) →
     ∃ tpl, (<[(VECTOR_AXPY_TYPE, FLOAT_TYPE) :=
                 model_of_templates [vaxpy 1 64 128 FETCH_FROM_GLOBAL_STRIDED] queue]>
               (foldl (default_models queue) ∅ types)) !! (etype, t)
            = Some (model_of_template tpl queue) ∧
            template_kind tpl
            = (if decide (etype = SCALAR_AXPY_TYPE) then VECTOR_AXPY_TYPE else etype)).
Proof.
  assert (init_models queue (Some vaxpy_document)
          = Ok (<[(VECTOR_AXPY_TYPE, FLOAT_TYPE) :=
                    model_of_templates [vaxpy 1 64 128 FETCH_FROM_GLOBAL_STRIDED] queue]>
                  (foldl (default_models queue) ∅ types))) as Hrun.
  { unfold init_models, vaxpy_document.
    eapply (import_listed_operation "vaxpy" "float32" vaxpy_leaf);
      [ unfold operations; apply elem_of_cons; by left
      | unfold dtype; apply elem_of_cons; by left
      | reflexivity | reflexivity | reflexivity | reflexivity | reflexivity ]. }
  split; [exact Hrun|].
  apply (init_models_with_file queue vaxpy_document). exact Hrun.
Defined.

Lemma get_model_map_caches_run :
  get_model_map ∅ 1%Z queue None
  = Ok (foldl (default_models queue) ∅ types,
        <[1%Z := foldl (default_models queue) ∅ types]> ∅) ∧
  (<[1%Z := foldl (default_models queue) ∅ types]> ∅ : gmap Z _) !! 1%Z
  = Some (foldl (default_models queue) ∅ types) ∧
  (∀ handle', handle' ≠ 1%Z →
              (<[1%Z := foldl (default_models queue) ∅ types]> ∅ : gmap Z _) !! handle'
              = (∅ : gmap Z (gmap (expression_type * numeric_type) model)) !! handle') ∧
  (∀ queue' model_file',
     get_model_map (<[1%Z := foldl (default_models queue) ∅ types]> ∅) 1%Z
       queue' model_file'
     = Ok (foldl (default_models queue) ∅ types,
           <[1%Z := foldl (default_models queue) ∅ types]> ∅)).
Proof.
  assert (get_model_map ∅ 1%Z queue None
          = Ok (foldl (default_models queue) ∅ types,
                <[1%Z := foldl (default_models queue) ∅ types]> ∅)) as Hrun.
  { unfold get_model_map. by rewrite lookup_empty. }
  split; [exact Hrun|].
  apply (get_model_map_caches ∅ _ 1%Z queue None). exact Hrun.
Defined.

Lemma empty_registry_total :
  registry_total (∅ : gmap Z (gmap (expression_type * numeric_type) model)).
Proof. intros handle res H. by rewrite lookup_empty in H. Defined.

Lemma get_model_finds_run :
  registry_total (∅ : gmap Z (gmap (expression_type * numeric_type) model)) ∧
  get_model ∅ 1%Z queue (Some vaxpy_document) MATRIX_PRODUCT_NT_TYPE INT_TYPE
  ≠ out_of_range ∧
  (∀ res models',
     get_model_map ∅ 1%Z queue (Some vaxpy_document) = Ok (res, models') →
     registry_total models' ∧
     ∃ m, get_model ∅ 1%Z queue (Some vaxpy_document) MATRIX_PRODUCT_NT_TYPE INT_TYPE
          = Found (m, models')) ∧
  (∀ f, get_model_map ∅ 1%Z queue (Some vaxpy_document) = Fail f →
        get_model ∅ 1%Z queue (Some vaxpy_document) MATRIX_PRODUCT_NT_TYPE INT_TYPE
        = Failed f) ∧
  (∃ m models',
     get_model ∅ 1%Z queue None MATRIX_PRODUCT_NT_TYPE INT_TYPE = Found (m, models')) ∧
  registry_total (∅ : gmap Z (gmap (expression_type * numeric_type) model)).
Proof.
  split; [exact empty_registry_total|].
  apply (get_model_finds ∅ 1%Z queue (Some vaxpy_document) MATRIX_PRODUCT_NT_TYPE INT_TYPE).
  exact empty_registry_total.
Defined.

End MoreRuns.
